(** * pbimmutable: the immutable-field guard for record updates

    A shallow embedding of [immutable.go] (both revisions of [MakeImmutable]
    present in the repository) together with the properties of the guard:
    argument parsing, the comparison loop, and the commit / follow-up stage. *)

From Stdlib Require Import Floats.PrimFloat.
From stdpp Require Import base option list strings gmap pretty.

Set Warnings "-register-all".

Open Scope string_scope.
Open Scope list_scope.

(** ** Dynamic values

    [Record.Get] returns an [any].  The universe below covers the dynamic
    values a record attribute holds: the untyped nil, booleans, integers,
    float64 numbers, strings, [[]any] slices and [map[string]any] maps (each
    of the last two either nil or allocated).  An allocated slice or map is
    a reference: it has the address of its storage beside what the storage
    holds.  A map is kept as the list of its entries; a well-formed map has
    no repeated key, and the position of an entry in the list is the order
    in which the key was first assigned. *)

Inductive Value : Type :=
  | VNil
  | VBool (b : bool)
  | VInt (n : Z)
  | VFloat (f : float)
  | VString (s : string)
  | VSliceNil
  | VSlice (ptr : N) (xs : list Value)
  | VMapNil
  | VMap (ptr : N) (kvs : list (string * Value)).

(** [m[k]] with the comma-ok result: the value stored under the key. *)
Fixpoint MapIndex {A : Type} (m : list (string * A)) (k : string) : option A :=
  match m with
  | [] => None
  | (k', v) :: m' => if String.eqb k' k then Some v else MapIndex m' k
  end.


Definition WellFormedMap {A : Type} (m : list (string * A)) : Prop :=
  NoDup (m.*1).


(** [reflect.DeepEqual] on the universe above, by the rules of its
    documentation: values of different dynamic type are never equal; a nil
    slice (map) equals only a nil slice (map); two slices are equal when
    they have the same length and either are the same slice (the same
    storage) or have equal elements position by position; two maps are equal
    when they have the same length and either are the same map or, for every
    entry of the first, the second holds an equal value under the key; floats
    are compared with [==], so that NaN differs from itself. *)
Fixpoint DeepEqual (v1 v2 : Value) {struct v1} : bool :=
  match v1, v2 with
  | VNil, VNil => true
  | VBool a, VBool b => Bool.eqb a b
  | VInt a, VInt b => Z.eqb a b
  | VFloat a, VFloat b => PrimFloat.eqb a b
  | VString a, VString b => String.eqb a b
  | VSliceNil, VSliceNil => true
  | VSlice p xs, VSlice q ys =>
      Nat.eqb (length xs) (length ys) &&
      (N.eqb p q ||
       (fix elems (xs ys : list Value) {struct xs} : bool :=
          match xs, ys with
          | [], [] => true
          | x :: xs', y :: ys' => DeepEqual x y && elems xs' ys'
          | _, _ => false
          end) xs ys)
  | VMapNil, VMapNil => true
  | VMap p m1, VMap q m2 =>
      Nat.eqb (length m1) (length m2) &&
      (N.eqb p q ||
       (fix entries (m : list (string * Value)) {struct m} : bool :=
          match m with
          | [] => true
          | (k, v) :: m' =>
              match MapIndex m2 k with
              | Some v' => DeepEqual v v'
              | None => false
              end && entries m'
          end) m1)
  | _, _ => false
  end.

(** Deep structural equality as the spec words it, a recursive equality
    over the tagged values that looks at what they hold and not at where:
    equal primitives (floats by [==]), sequences with equal elements in
    equal order, mappings in which every key is bound in both or in neither,
    to equal values. *)
Inductive SameContent : Value → Value → Prop :=
  | same_nil : SameContent VNil VNil
  | same_bool b : SameContent (VBool b) (VBool b)
  | same_int n : SameContent (VInt n) (VInt n)
  | same_float f g :
      PrimFloat.eqb f g = true → SameContent (VFloat f) (VFloat g)
  | same_string s : SameContent (VString s) (VString s)
  | same_slice_nil : SameContent VSliceNil VSliceNil
  | same_slice p q xs ys :
      Forall2 SameContent xs ys → SameContent (VSlice p xs) (VSlice q ys)
  | same_map_nil : SameContent VMapNil VMapNil
  | same_map p q m1 m2 :
      (∀ k, option_Forall2 SameContent (MapIndex m1 k) (MapIndex m2 k)) →
      SameContent (VMap p m1) (VMap q m2).

(** No map in the value, at any depth, has a repeated key. *)
Fixpoint WellFormed (v : Value) : Prop :=
  match v with
  | VSlice _ xs =>
      (fix all (xs : list Value) : Prop :=
         match xs with
         | [] => True
         | x :: xs' => WellFormed x ∧ all xs'
         end) xs
  | VMap _ kvs =>
      WellFormedMap kvs
      ∧ (fix all (m : list (string * Value)) : Prop :=
           match m with
           | [] => True
           | kv :: m' => WellFormed kv.2 ∧ all m'
           end) kvs
  | _ => True
  end.



(** ** Errors

    A Go [error] is one of: a plain message ([errors.New], [fmt.Errorf]
    without [%w], or an error of a collaborator), a message wrapping a cause
    ([fmt.Errorf("<prefix>: %w", cause)]), or a PocketBase [*apis.ApiError]
    with its status, the message and the data it was built from. *)

Inductive Err : Type :=
  | ErrNew (msg : string)
  | ErrWrap (prefix : string) (cause : Err)
  | ErrApi (code : Z) (message : string) (rawData : ApiData)
with ApiData : Type :=
  | DataNil
  | DataMap (m : list (string * Value))
  | DataErr (e : Err).

(** [err.Error()], which is also what [%v] prints. *)
Fixpoint Error (e : Err) : string :=
  match e with
  | ErrNew msg => msg
  | ErrWrap prefix cause => prefix +:+ ": " +:+ Error cause
  | ErrApi _ message _ => message
  end.

(** [apis.NewBadRequestError(message, data)]: status 400 with the message and
    the data as given (PocketBase's own normalisation of the message text is
    outside this repository and is not applied here). *)
Definition NewBadRequestError (message : string) (data : ApiData) : Err :=
  ErrApi 400 message data.

(** ** System fields *)

(** Modelled from the spec: the six [models.SystemField...] constants are
    declared by the host library, not under the repository's sources.  The
    spec lists them (identifier, creation timestamp, modification timestamp,
    owning-collection identifier, owning-collection name, expansion
    metadata); the spellings are the six keys the repository's tests delete
    from an exported record. *)
Definition SystemFieldId : string := "id".
Definition SystemFieldCreated : string := "created".
Definition SystemFieldUpdated : string := "updated".
Definition SystemFieldCollectionId : string := "collectionId".
Definition SystemFieldCollectionName : string := "collectionName".
Definition SystemFieldExpand : string := "expand".

(** [isSystemField]: the [switch] over the six constants. *)
Definition isSystemField (fieldName : string) : bool :=
  String.eqb fieldName SystemFieldId
  || String.eqb fieldName SystemFieldCreated
  || String.eqb fieldName SystemFieldUpdated
  || String.eqb fieldName SystemFieldCollectionId
  || String.eqb fieldName SystemFieldCollectionName
  || String.eqb fieldName SystemFieldExpand.

(** The spec's SystemAttributeSet: the reserved names as a set. *)
Definition SystemAttributeSet : gset string :=
  {[ SystemFieldId; SystemFieldCreated; SystemFieldUpdated;
     SystemFieldCollectionId; SystemFieldCollectionName; SystemFieldExpand ]}.

(** ** Records of the host *)

Record ModelsCollection : Type := {
  Collection_Id : string;
  Collection_Name : string
}.

Record SchemaField : Type := { Name : string }.

(** A [*models.Record]: its identifier, its collection, the fields its
    schema declares (in declaration order) and the attribute values, system
    attributes included.  A record always has its collection, as one made by
    [models.NewRecord] has. *)
Record ModelsRecord : Type := {
  Record_Id : string;
  Record_Collection : ModelsCollection;
  Record_Schema : list SchemaField;
  Record_data : gmap string Value
}.

(** [r.Get(key)]: the stored value, or the untyped nil when there is none. *)
Definition Record_Get (r : ModelsRecord) (key : string) : Value :=
  default VNil (Record_data r !! key).

(** ** The comparison loop

    Lines 81-99 of the first revision and 175-196 of the second are the same
    loop; it reads both records and touches nothing else.  [None] is the
    fall-through after the last field, [Some err] the early [return]. *)

Definition ImmutabilityViolation (fieldName recordId : string) : Err :=
  NewBadRequestError
    ("Attempt to modify immutable field '" +:+ fieldName +:+ "'.")
    (DataMap [("field", VString fieldName);
              ("reason", VString "immutable");
              ("recordId", VString recordId)]).

Fixpoint checkFields (originalRecord eRecord : ModelsRecord)
    (fieldsToCheck : list string) : option Err :=
  match fieldsToCheck with
  | [] => None
  | fieldName :: rest =>
      let originalValue := Record_Get originalRecord fieldName in
      let pendingValue := Record_Get eRecord fieldName in
      if negb (DeepEqual originalValue pendingValue) then
        if isSystemField fieldName && String.eqb fieldName SystemFieldUpdated
        then checkFields originalRecord eRecord rest
        else Some (ImmutabilityViolation fieldName (Record_Id eRecord))
      else checkFields originalRecord eRecord rest
  end.

(** Lines 69-79 (163-173): the names as given, or, when there are none, the
    schema's field names that are not system fields, in schema order. *)
Fixpoint userFields (schemaFields : list SchemaField) : list string :=
  match schemaFields with
  | [] => []
  | field :: rest =>
      if negb (isSystemField (Name field))
      then Name field :: userFields rest
      else userFields rest
  end.

Definition fieldsToCheck (immutableFieldNames : list string)
    (eRecord : ModelsRecord) : list string :=
  if Nat.eqb (length immutableFieldNames) 0
  then userFields (Record_Schema eRecord)
  else immutableFieldNames.

(** ** What the loop looks for *)

(** The attribute differs between the snapshot and the proposed record. *)
Definition Changed (originalRecord eRecord : ModelsRecord) (f : string) : Prop :=
  DeepEqual (Record_Get originalRecord f) (Record_Get eRecord f) = false.

(** It differs and is not the modification timestamp. *)
Definition Offends (originalRecord eRecord : ModelsRecord) (f : string) : Prop :=
  Changed originalRecord eRecord f ∧ f ≠ SystemFieldUpdated.

#[global] Instance Changed_dec o r f : Decision (Changed o r f).
Proof. unfold Changed. apply _. Defined.

#[global] Instance Offends_dec o r f : Decision (Offends o r f).
Proof. unfold Offends. apply _. Defined.

(** The fields of a list before position [i] do not offend. *)
Definition FirstOffender (originalRecord eRecord : ModelsRecord)
    (fields : list string) (i : nat) (f : string) : Prop :=
  fields !! i = Some f
  ∧ Offends originalRecord eRecord f
  ∧ ∀ j g, fields !! j = Some g → j < i → ¬ Offends originalRecord eRecord g.

(** ** The host: events, collaborators and the calls made into them

    [W] is the state of the host that the collaborators read and change (the
    database, and whatever a callback touches).  A collaborator is a function
    of that state; the guard itself keeps no state between events. *)

Section Host.
Context {W : Type}.

Definition Effect (A : Type) : Type := W → A * W.

(** [e.App]: what the guard uses of it is [Dao().FindRecordById]. *)
Record CoreApp : Type := {
  Dao_FindRecordById : string → string → Effect (Err + ModelsRecord)
}.

(** [*core.RecordEvent]: the proposed record, the app handle and the rest
    of the update chain, [e.Next()]. *)
Record RecordEvent : Type := {
  Event_Record : option ModelsRecord;
  Event_App : option CoreApp;
  Event_Next : Effect (option Err)
}.

(** [func(e *core.RecordEvent) error] *)
Definition Callback : Type := RecordEvent → Effect (option Err).

(** An element of [args ...interface{}], by the cases of the type switch:
    a string, a value of the callback's function type (possibly the nil
    function), or a value of any other type, with the name [%T] prints. *)
Inductive Arg : Type :=
  | ArgString (v : string)
  | ArgFunc (v : option Callback)
  | ArgOther (goType : string).

(** The calls into the host, in the order made, each with what it
    returned (for the fetch: the arguments it was made with). *)
Inductive Call : Type :=
  | CallFindRecordById (collectionId recordId : string)
  | CallNext (r : option Err)
  | CallCallback (r : option Err).

(** What one run of a hook leaves behind. *)
Record Outcome (A : Type) : Type := mkOutcome {
  result : A;
  world : W;
  calls : list Call
}.
Global Arguments mkOutcome {A} _ _ _.
Global Arguments result {A} _.
Global Arguments world {A} _.
Global Arguments calls {A} _.

(** Hook code: it reads and changes the host state, records its calls, and
    either goes on with a value or returns early with an error. *)
Definition M (A : Type) : Type := W → Outcome (Err + A).

Definition ret {A} (a : A) : M A := λ w, mkOutcome (inr a) w [].

Definition fail {A} (err : Err) : M A := λ w, mkOutcome (inl err) w [].

Definition bind {A B} (m : M A) (k : A → M B) : M B := λ w,
  match m w with
  | mkOutcome (inl err) w1 t => mkOutcome (inl err) w1 t
  | mkOutcome (inr a) w1 t =>
      match k a w1 with
      | mkOutcome r w2 t' => mkOutcome r w2 (t ++ t')
      end
  end.

Definition call {A} (c : Effect A) (log : A → Call) : M A := λ w,
  let '(a, w') := c w in mkOutcome (inr a) w' [log a].

(** The [error] a hook returns: nil when the body ran to its end. *)
Definition run (m : M unit) (w : W) : Outcome (option Err) :=
  match m w with
  | mkOutcome (inl err) w1 t => mkOutcome (Some err) w1 t
  | mkOutcome (inr _) w1 t => mkOutcome None w1 t
  end.
End Host.

Arguments CoreApp : clear implicits.
Arguments RecordEvent : clear implicits.
Arguments Callback : clear implicits.
Arguments Arg : clear implicits.
Arguments Outcome : clear implicits.
Arguments M : clear implicits.
Arguments Effect : clear implicits.

#[global] Instance M_ret {W} : MRet (M W) := λ A, @ret W A.
#[global] Instance M_bind {W} : MBind (M W) := λ A B k m, @bind W A B m k.

(** [if x == nil { return err }] for an optional pointer. *)
Definition orReturn {W A} (x : option A) (err : Err) : M W A :=
  match x with
  | Some a => ret a
  | None => fail err
  end.

(** [if err != nil { return wrap(err) }] for an optional error. *)
Definition returnIf {W} (err : option Err) (wrap : Err → Err) : M W unit :=
  match err with
  | Some e => fail (wrap e)
  | None => ret tt
  end.

(** ** What both revisions share

    The two precondition errors, and the fetch of the stored record with the
    call it leaves in the trace. *)

Definition errNoRecord : Err :=
  NewBadRequestError "Record data is missing in the event." DataNil.

Definition errNoApp : Err :=
  NewBadRequestError "App context is missing in the event." DataNil.

Definition fetchCall (eRecord : ModelsRecord) : Call :=
  CallFindRecordById (Collection_Id (Record_Collection eRecord))
                     (Record_Id eRecord).

(** [e.App.Dao().FindRecordById(e.Record.Collection().Id, e.Record.Id)] *)
Definition fetch {W} (eApp : CoreApp W) (eRecord : ModelsRecord)
  : Effect W (Err + ModelsRecord) :=
  Dao_FindRecordById eApp (Collection_Id (Record_Collection eRecord))
                     (Record_Id eRecord).

(** ** The first revision: [MakeImmutable(args ...interface{})] *)

Module Variadic.
Section Guard.
Context {W : Type}.

(** The three variables the returned closure captures. *)
Record Policy : Type := {
  immutableFieldNames : list string;
  userCallback : option (Callback W);
  parseError : option Err
}.

Definition errOnlyOneCallback : Err :=
  ErrNew "pbimmutable.MakeImmutable: only one callback function can be provided".

Definition errInvalidArgument (goType : string) (i : nat) : Err :=
  ErrNew ("pbimmutable.MakeImmutable: invalid argument type " +:+ goType
          +:+ " at position " +:+ pretty i).

(** Lines 32-49: the loop over [args], from position [i] on, with the
    names and the callback collected so far.  Either kind of error ends
    the loop at once. *)
Fixpoint parseArgs (i : nat) (args : list (Arg W))
    (names : list string) (callback : option (Callback W)) : Policy :=
  match args with
  | [] =>
      {| immutableFieldNames := names; userCallback := callback;
         parseError := None |}
  | ArgString v :: rest => parseArgs (S i) rest (names ++ [v]) callback
  | ArgFunc v :: rest =>
      match callback with
      | Some _ =>
          {| immutableFieldNames := names; userCallback := callback;
             parseError := Some errOnlyOneCallback |}
      | None => parseArgs (S i) rest names v
      end
  | ArgOther goType :: rest =>
      {| immutableFieldNames := names; userCallback := callback;
         parseError := Some (errInvalidArgument goType i) |}
  end.

(** Line 54: the parse error, reported when the hook runs. *)
Definition errSetup (parseErr : Err) : Err :=
  NewBadRequestError
    ("MakeImmutable setup error: " +:+ Error parseErr) DataNil.

Definition wrapCommit (err : Err) : Err :=
  ErrWrap "failed to commit record changes via e.Next() after immutability checks" err.

Definition wrapCallback (err : Err) : Err :=
  ErrWrap "user callback failed AFTER record commit" err.

Definition errFetch (eRecord : ModelsRecord) (err : Err) : Err :=
  NewBadRequestError
    ("Failed to fetch original record " +:+ Record_Id eRecord
     +:+ " from collection " +:+ Collection_Name (Record_Collection eRecord)
     +:+ " for immutability check.")
    (DataErr err).

(** Lines 104-122: [e.Next()], then the callback when there is one. *)
Definition commitAndCallback (callback : option (Callback W))
    (e : RecordEvent W) : M W unit :=
  err ← call (Event_Next e) CallNext;
  returnIf err wrapCommit;;
  match callback with
  | Some cb =>
      callbackErr ← call (cb e) CallCallback;
      returnIf callbackErr wrapCallback
  | None => ret tt
  end.

(** Lines 52-123: the body of the returned hook. *)
Definition hook (p : Policy) (e : RecordEvent W) : M W unit :=
  returnIf (parseError p) errSetup;;
  eRecord ← orReturn (Event_Record e) errNoRecord;
  eApp ← orReturn (Event_App e) errNoApp;
  found ← call (fetch eApp eRecord) (λ _, fetchCall eRecord);
  originalRecord ← match found with
                   | inl err => fail (errFetch eRecord err)
                   | inr r => ret r
                   end;
  returnIf (checkFields originalRecord eRecord
              (fieldsToCheck (immutableFieldNames p) eRecord)) id;;
  commitAndCallback (userCallback p) e.

Definition MakeImmutable (args : list (Arg W))
  : RecordEvent W → W → Outcome W (option Err) :=
  let p := parseArgs 0 args [] None in
  λ e, run (hook p e).
End Guard.
End Variadic.

(** ** The second revision: [MakeImmutable(immutableFieldNames ...string)] *)

Module StringsOnly.
Section Guard.
Context {W : Type}.

Definition errFetch (eRecord : ModelsRecord) (err : Err) : Err :=
  NewBadRequestError
    ("Failed to fetch original record " +:+ Record_Id eRecord
     +:+ " from collection " +:+ Collection_Name (Record_Collection eRecord)
     +:+ ".")
    (DataErr err).

Definition hook (immutableFieldNames : list string) (e : RecordEvent W)
  : M W unit :=
  eRecord ← orReturn (Event_Record e) errNoRecord;
  eApp ← orReturn (Event_App e) errNoApp;
  found ← call (fetch eApp eRecord) (λ _, fetchCall eRecord);
  originalRecord ← match found with
                   | inl err => fail (errFetch eRecord err)
                   | inr r => ret r
                   end;
  returnIf (checkFields originalRecord eRecord
              (fieldsToCheck immutableFieldNames eRecord)) id.

Definition MakeImmutable (immutableFieldNames : list string)
  : RecordEvent W → W → Outcome W (option Err) :=
  λ e, run (hook immutableFieldNames e).
End Guard.
End StringsOnly.

(** The policy the first revision parses from strings alone. *)
Definition namesOnly {W} (names : list string) : @Variadic.Policy W :=
  {| Variadic.immutableFieldNames := names;
     Variadic.userCallback := None;
     Variadic.parseError := None |}.

(** ** The arguments, read as a whole *)

(** The string arguments, in the order given. *)
Definition argStrings {W} (args : list (Arg W)) : list string :=
  omap (λ a, match a with ArgString v => Some v | _ => None end) args.

(** The first argument that is a function and not the nil function. *)
Fixpoint firstCallback {W} (args : list (Arg W)) : option (Callback W) :=
  match args with
  | [] => None
  | ArgFunc (Some cb) :: _ => Some cb
  | _ :: rest => firstCallback rest
  end.

(** Nothing but strings and functions, and no function of any kind after a
    function that is not nil. *)
Definition ValidArgs {W} (args : list (Arg W)) : Prop :=
  (∀ goType, ArgOther goType ∉ args)
  ∧ ∀ pre cb post v,
      args = pre ++ ArgFunc (Some cb) :: post → ArgFunc v ∉ post.

(** The run ended in an immutability violation. *)
Definition Denied {W} (o : Outcome W (option Err)) : Prop :=
  ∃ f recordId, result o = Some (ImmutabilityViolation f recordId).

(** ** A concrete host

    The collection of the repository's tests ([test_items], with the fields
    name, value, status and description), a database holding the stored
    records by identifier, an update chain that stores the proposed record,
    and one that fails. *)

Module Scenario.

Definition DB : Type := gmap string ModelsRecord.

Definition testItems : ModelsCollection :=
  {| Collection_Id := "c1"; Collection_Name := "test_items" |}.

Definition testSchema : list SchemaField :=
  [ {| Name := "name" |}; {| Name := "value" |};
    {| Name := "status" |}; {| Name := "description" |} ].

Definition mkRecord (id : string) (data : list (string * Value)) : ModelsRecord :=
  {| Record_Id := id; Record_Collection := testItems;
     Record_Schema := testSchema; Record_data := list_to_map data |}.

Definition app : CoreApp DB :=
  {| Dao_FindRecordById := λ _ id db,
       (match db !! id with
        | Some r => inr r
        | None => inl (ErrNew "sql: no rows in result set")
        end, db) |}.

Definition save (r : ModelsRecord) : Effect DB (option Err) :=
  λ db, (None, <[Record_Id r := r]> db).

Definition saveFails : Effect DB (option Err) :=
  λ db, (Some (ErrNew "database is locked"), db).

Definition event (r : ModelsRecord) : RecordEvent DB :=
  {| Event_Record := Some r; Event_App := Some app; Event_Next := save r |}.

Definition eventSaveFails (r : ModelsRecord) : RecordEvent DB :=
  {| Event_Record := Some r; Event_App := Some app; Event_Next := saveFails |}.

(** The dummy event of the argument-parsing test: [&core.RecordEvent{}]. *)
Definition dummyEvent : RecordEvent DB :=
  {| Event_Record := None; Event_App := None; Event_Next := λ db, (None, db) |}.

Definition okCallback : Callback DB := λ _ db, (None, db).

Definition failingCallback : Callback DB :=
  λ _ db, (Some (ErrNew "callback_forced_error"), db).

(** A record of the collection with the given attribute values. *)
Definition item (name : string) (value : Z) (status created updated : string)
  : ModelsRecord :=
  mkRecord "r1" [("name", VString name); ("value", VInt value);
                 ("status", VString status);
                 ("created", VString created); ("updated", VString updated)].

Definition stored : ModelsRecord :=
  item "x" 1 "active" "2024-01-01 00:00:00.000Z" "2024-01-01 00:00:00.000Z".

Definition db0 : DB := {[ "r1" := stored ]}.

(** status changed, name kept *)
Definition statusChanged : ModelsRecord :=
  item "x" 1 "inactive" "2024-01-01 00:00:00.000Z" "2024-01-01 00:00:00.000Z".

(** name changed *)
Definition nameChanged : ModelsRecord :=
  item "y" 1 "active" "2024-01-01 00:00:00.000Z" "2024-01-01 00:00:00.000Z".

(** value changed *)
Definition valueChanged : ModelsRecord :=
  item "x" 2 "active" "2024-01-01 00:00:00.000Z" "2024-01-01 00:00:00.000Z".


(** only the creation timestamp changed *)
Definition createdChanged : ModelsRecord :=
  item "x" 1 "active" "2025-06-30 12:00:00.000Z" "2024-01-01 00:00:00.000Z".

(** only the modification timestamp changed *)
Definition updatedChanged : ModelsRecord :=
  item "x" 1 "active" "2024-01-01 00:00:00.000Z" "2025-06-30 12:00:00.000Z".

(** a record the database does not hold *)
Definition unknownRecord : ModelsRecord :=
  mkRecord "r9" [("name", VString "x")].

End Scenario.

(** * Properties of [DeepEqual] *)

Section DeepEqualFacts.
Implicit Types xs ys : list Value.

(** Induction on values, with the hypothesis for every element of a slice
    and every value of a map. *)
Lemma Value_nested_ind (P : Value → Prop) :
  P VNil → (∀ b, P (VBool b)) → (∀ n, P (VInt n)) → (∀ f, P (VFloat f)) →
  (∀ s, P (VString s)) → P VSliceNil →
  (∀ p xs, Forall P xs → P (VSlice p xs)) → P VMapNil →
  (∀ p kvs, Forall (λ kv, P kv.2) kvs → P (VMap p kvs)) →
  ∀ v, P v.
Proof.
  intros Hnil Hbool Hint Hfloat Hstring Hsnil Hslice Hmnil Hmap.
  fix IH 1.
  intros [|b|n|f|s| |p xs| |p kvs];
    [exact Hnil|apply Hbool|apply Hint|apply Hfloat|apply Hstring
    |exact Hsnil| |exact Hmnil| ].
  - apply Hslice.
    refine ((fix elems (xs : list Value) : Forall P xs :=
               match xs with
               | [] => Forall_nil_2 _
               | x :: xs' => Forall_cons_2 _ _ _ (IH x) (elems xs')
               end) xs).
  - apply Hmap.
    refine ((fix entries (m : list (string * Value))
               : Forall (λ kv, P kv.2) m :=
               match m with
               | [] => Forall_nil_2 _
               | kv :: m' => Forall_cons_2 _ _ _ (IH kv.2) (entries m')
               end) kvs).
Qed.

(** The slices at two addresses are compared element by element. *)
Lemma DeepEqual_slice p q xs ys :
  p ≠ q →
  DeepEqual (VSlice p xs) (VSlice q ys) = true
  ↔ Forall2 (λ x y, DeepEqual x y = true) xs ys.
Proof.
  intros Hpq. apply N.eqb_neq in Hpq.
  revert ys. induction xs as [|x xs IH]; intros [|y ys]; simpl;
    rewrite ?Hpq; simpl.
  - split; [constructor | done].
  - split; [done | inversion 1].
  - split; [done | inversion 1].
  - specialize (IH ys). simpl in IH. rewrite Hpq in IH. simpl in IH.
    rewrite andb_true_iff in IH |- *. rewrite andb_true_iff.
    split.
    + intros (Hl & Hx & He). constructor; [done|]. by apply IH.
    + inversion 1 as [|???? Hx HF]; subst. apply IH in HF as [??]. done.
Qed.

(** Whatever the addresses, slices equal element by element are equal. *)
Lemma DeepEqual_slice_intro p q xs ys :
  Forall2 (λ x y, DeepEqual x y = true) xs ys →
  DeepEqual (VSlice p xs) (VSlice q ys) = true.
Proof.
  intros HF. destruct (decide (p = q)) as [->|Hpq].
  - simpl. rewrite (Forall2_length _ _ _ HF), Nat.eqb_refl, N.eqb_refl. done.
  - by apply DeepEqual_slice.
Qed.


Lemma DeepEqual_same_map p (m1 m2 : list (string * Value)) :
  DeepEqual (VMap p m1) (VMap p m2) = true ↔ length m1 = length m2.
Proof.
  simpl. rewrite N.eqb_refl, andb_true_r. apply Nat.eqb_eq.
Qed.

Lemma DeepEqual_map p q (m1 m2 : list (string * Value)) :
  p ≠ q →
  DeepEqual (VMap p m1) (VMap q m2) = true
  ↔ length m1 = length m2
    ∧ Forall (λ kv, ∃ v', MapIndex m2 kv.1 = Some v'
                          ∧ DeepEqual kv.2 v' = true) m1.
Proof.
  intros Hpq. apply N.eqb_neq in Hpq.
  simpl. rewrite Hpq. simpl. rewrite andb_true_iff, Nat.eqb_eq.
  apply and_iff_compat_l.
  induction m1 as [|[k v] m1 IH]; simpl.
  - split; [constructor | done].
  - rewrite andb_true_iff, IH, Forall_cons. simpl.
    apply and_iff_compat_r.
    destruct (MapIndex m2 k) as [v'|]; split.
    + eauto.
    + by intros (? & [= <-] & ?).
    + done.
    + by intros (? & ? & ?).
Qed.

Lemma DeepEqual_map_intro p q (m1 m2 : list (string * Value)) :
  length m1 = length m2 →
  Forall (λ kv, ∃ v', MapIndex m2 kv.1 = Some v'
                      ∧ DeepEqual kv.2 v' = true) m1 →
  DeepEqual (VMap p m1) (VMap q m2) = true.
Proof.
  intros Hl HF. destruct (decide (p = q)) as [->|Hpq].
  - by apply DeepEqual_same_map.
  - by apply DeepEqual_map.
Qed.

Lemma MapIndex_elem_of {A} (m : list (string * A)) k v :
  WellFormedMap m → (k, v) ∈ m → MapIndex m k = Some v.
Proof.
  unfold WellFormedMap.
  induction m as [|[k' v'] m IH]; simpl; intros Hnd Hin.
  - by apply elem_of_nil in Hin.
  - apply NoDup_cons in Hnd as [Hk' Hnd].
    apply elem_of_cons in Hin as [[= <- <-]|Hin].
    + by rewrite String.eqb_refl.
    + destruct (String.eqb_spec k' k) as [->|_]; [|by apply IH].
      exfalso. apply Hk'. apply list_elem_of_fmap. by exists (k, v).
Qed.

Lemma MapIndex_Some {A} (m : list (string * A)) k v :
  MapIndex m k = Some v → (k, v) ∈ m.
Proof.
  induction m as [|[k' v'] m IH]; simpl; [done|].
  destruct (String.eqb_spec k' k) as [->|_].
  - intros [= ->]. left.
  - intros H. right. by apply IH.
Qed.

Lemma MapIndex_is_Some {A} (m : list (string * A)) k :
  is_Some (MapIndex m k) ↔ k ∈ m.*1.
Proof.
  split.
  - intros [v Hv%MapIndex_Some]. apply list_elem_of_fmap. by exists (k, v).
  - induction m as [|[k' v'] m IH]; simpl.
    + intros Hin. by apply elem_of_nil in Hin.
    + intros Hin. destruct (String.eqb_spec k' k) as [->|Hne]; [by eexists|].
      apply IH. by apply elem_of_cons in Hin as [?|?].
Qed.




Lemma WellFormed_slice p xs :
  WellFormed (VSlice p xs) ↔ Forall WellFormed xs.
Proof.
  induction xs as [|x xs IH]; [by split; [constructor|]|].
  rewrite Forall_cons, <- IH. done.
Qed.

Lemma WellFormed_map p (kvs : list (string * Value)) :
  WellFormed (VMap p kvs)
  ↔ WellFormedMap kvs ∧ Forall (λ kv, WellFormed kv.2) kvs.
Proof.
  cbn [WellFormed]. apply and_iff_compat_l.
  induction kvs as [|kv kvs IH]; [by split; [constructor|]|].
  rewrite Forall_cons, <- IH. done.
Qed.



Lemma Forall2_impl_elem {A B} (P Q : A → B → Prop) (l : list A) (k : list B) :
  Forall2 P l k →
  (∀ x y, x ∈ l → y ∈ k → P x y → Q x y) →
  Forall2 Q l k.
Proof.
  induction 1 as [|x y l k HP HF IH]; intros HPQ; constructor.
  - apply HPQ; [left|left|done].
  - apply IH. intros x' y' Hx Hy. apply HPQ; by right.
Qed.


(** Equal content is found equal, shared storage or not. *)
Lemma SameContent_DeepEqual v1 : ∀ v2,
  WellFormed v1 → WellFormed v2 →
  SameContent v1 v2 → DeepEqual v1 v2 = true.
Proof.
  induction v1 as [|b|n|f|s| |p xs IH| |p m1 IH] using Value_nested_ind;
    intros v2 Hw1 Hw2 HS; inversion HS; subst; simpl; try done.
  - by destruct b.
  - apply Z.eqb_refl.
  - apply String.eqb_refl.
  - apply DeepEqual_slice_intro.
    apply WellFormed_slice in Hw1, Hw2.
    rewrite Forall_forall in IH, Hw1, Hw2.
    match goal with H : Forall2 SameContent _ _ |- _ =>
      apply (Forall2_impl_elem _ _ _ _ H) end.
    intros x y Hx Hy Hxy. apply IH; auto.
  - apply WellFormed_map in Hw1 as [Hnd1 Hw1], Hw2 as [Hnd2 Hw2].
    rewrite Forall_forall in IH, Hw1, Hw2.
    match goal with H : ∀ k, option_Forall2 _ _ _ |- _ => rename H into Hk end.
    apply DeepEqual_map_intro.
    + rewrite <- (length_fmap fst m1), <- (length_fmap fst m2).
      apply Permutation_length, NoDup_Permutation; [done|done|].
      intros k. rewrite <- !MapIndex_is_Some.
      specialize (Hk k). inversion Hk; split; intros [? ?]; by eauto.
    + apply Forall_forall. intros [k v] Hin. simpl.
      pose proof (MapIndex_elem_of _ _ _ Hnd1 Hin) as H1.
      specialize (Hk k). rewrite H1 in Hk.
      destruct (MapIndex m2 k) as [v'|] eqn:H2; [|by inversion Hk].
      exists v'. split; [done|].
      apply (IH _ Hin); [by apply (Hw1 _ Hin)| |by inversion Hk].
      apply (Hw2 (k, v')). by apply MapIndex_Some.
Qed.
End DeepEqualFacts.

(** * The comparison loop *)

Section LoopFacts.
Variables originalRecord eRecord : ModelsRecord.

Lemma isSystemField_updated : isSystemField SystemFieldUpdated = true.
Proof. reflexivity. Qed.

Lemma tolerated_iff f :
  isSystemField f && String.eqb f SystemFieldUpdated = true
  ↔ f = SystemFieldUpdated.
Proof.
  rewrite andb_true_iff, String.eqb_eq. split; [tauto|].
  intros ->. by rewrite isSystemField_updated.
Qed.

Lemma checkFields_cons f rest :
  checkFields originalRecord eRecord (f :: rest) =
    if decide (Offends originalRecord eRecord f)
    then Some (ImmutabilityViolation f (Record_Id eRecord))
    else checkFields originalRecord eRecord rest.
Proof.
  cbn [checkFields].
  destruct (decide (Offends originalRecord eRecord f)) as [[HC Hne]|Hno].
  - unfold Changed in HC. rewrite HC. simpl negb. cbv iota.
    destruct (isSystemField f && String.eqb f SystemFieldUpdated) eqn:HT;
      [|done].
    by apply tolerated_iff in HT.
  - destruct (DeepEqual _ _) eqn:HD; [done|]. simpl negb. cbv iota.
    destruct (isSystemField f && String.eqb f SystemFieldUpdated) eqn:HT;
      [done|].
    exfalso. apply Hno. split; [done|].
    intros Hf. apply tolerated_iff in Hf. congruence.
Qed.

(** The loop is a search for the first offending field. *)
Lemma checkFields_find fields :
  checkFields originalRecord eRecord fields =
    (λ x, ImmutabilityViolation x.2 (Record_Id eRecord))
      <$> list_find (Offends originalRecord eRecord) fields.
Proof.
  induction fields as [|f rest IH]; [done|].
  rewrite checkFields_cons. cbn [list_find].
  destruct (decide (Offends originalRecord eRecord f)); [done|].
  rewrite IH. by destruct (list_find _ rest) as [[??]|].
Qed.

Lemma checkFields_first fields i f :
  FirstOffender originalRecord eRecord fields i f →
  checkFields originalRecord eRecord fields =
    Some (ImmutabilityViolation f (Record_Id eRecord)).
Proof.
  intros HF. rewrite checkFields_find.
  apply (list_find_Some (Offends originalRecord eRecord)) in HF.
  by rewrite HF.
Qed.

Lemma checkFields_None fields :
  checkFields originalRecord eRecord fields = None
  ↔ ∀ f, f ∈ fields → ¬ Offends originalRecord eRecord f.
Proof.
  rewrite checkFields_find, fmap_None, list_find_None, Forall_forall.
  done.
Qed.

Lemma checkFields_Some fields err :
  checkFields originalRecord eRecord fields = Some err
  ↔ ∃ i f, FirstOffender originalRecord eRecord fields i f
           ∧ err = ImmutabilityViolation f (Record_Id eRecord).
Proof.
  rewrite checkFields_find, fmap_Some. split.
  - intros ([i f] & HF & ->). exists i, f. split; [|done].
    by apply list_find_Some in HF.
  - intros (i & f & HF & ->). exists (i, f). split; [|done].
    by apply list_find_Some.
Qed.

Lemma Offends_has_first fields f :
  f ∈ fields → Offends originalRecord eRecord f →
  ∃ i g, FirstOffender originalRecord eRecord fields i g.
Proof.
  intros Hin Hf.
  destruct (list_find (Offends originalRecord eRecord) fields)
    as [[i g]|] eqn:HF.
  - exists i, g. by apply list_find_Some in HF.
  - rewrite list_find_None, Forall_forall in HF. by destruct (HF f).
Qed.

(** A name that is already in the list adds nothing at its end. *)
Lemma checkFields_snoc_dup fields f :
  f ∈ fields →
  checkFields originalRecord eRecord (fields ++ [f]) =
    checkFields originalRecord eRecord fields.
Proof.
  intros Hin.
  destruct (checkFields originalRecord eRecord fields) as [err|] eqn:HC.
  - apply checkFields_Some in HC as (i & g & (Hi & Hg & Hlt) & ->).
    apply (checkFields_first _ i). split_and!; [|done|].
    + by apply lookup_app_l_Some.
    + intros j h Hj Hji. apply (Hlt j h); [|done].
      rewrite lookup_app_l in Hj; [done|].
      apply lookup_lt_Some in Hi. lia.
  - apply checkFields_None. intros g Hg.
    rewrite checkFields_None in HC. apply HC.
    apply elem_of_app in Hg as [?|Hg]; [done|].
    by apply list_elem_of_singleton in Hg as ->.
Qed.

(** The modification timestamp is passed over wherever it stands. *)
Lemma checkFields_skip_updated pre rest :
  checkFields originalRecord eRecord (pre ++ SystemFieldUpdated :: rest) =
    checkFields originalRecord eRecord (pre ++ rest).
Proof.
  induction pre as [|f pre IH].
  - simpl app. rewrite checkFields_cons, decide_False; [done|].
    by intros [_ ?].
  - rewrite <- !app_comm_cons, !checkFields_cons, IH. done.
Qed.

Lemma isSystemField_spec f : isSystemField f = true ↔ f ∈ SystemAttributeSet.
Proof.
  unfold isSystemField, SystemAttributeSet.
  rewrite !orb_true_iff, !String.eqb_eq. set_solver.
Qed.

(** The default list: the schema's names without the reserved ones. *)
Lemma userFields_filter (schemaFields : list SchemaField) :
  userFields schemaFields =
    filter (λ n, n ∉ SystemAttributeSet) (Name <$> schemaFields).
Proof.
  induction schemaFields as [|field rest IH]; [done|].
  rewrite fmap_cons, filter_cons. simpl.
  destruct (isSystemField (Name field)) eqn:HS; simpl.
  - apply isSystemField_spec in HS. by rewrite decide_False by tauto.
  - rewrite decide_True; [by rewrite IH|].
    rewrite <- isSystemField_spec. congruence.
Qed.

Lemma userFields_not_system (schemaFields : list SchemaField) f :
  f ∈ userFields schemaFields → f ∉ SystemAttributeSet.
Proof.
  rewrite userFields_filter, list_elem_of_filter. tauto.
Qed.

End LoopFacts.

(** * Running the hooks *)

Section MonadFacts.
Context {W : Type}.

Lemma bind_ret {A B} (a : A) (k : A → M W B) (w : W) :
  (ret a ≫= k) w = k a w.
Proof. unfold mbind, M_bind, bind, ret. by destruct (k a w). Qed.

Lemma bind_fail {A B} (err : Err) (k : A → M W B) (w : W) :
  (fail err ≫= k) w = mkOutcome (inl err) w [].
Proof. done. Qed.

Lemma bind_call {A B} (c : Effect W A) log (k : A → M W B) (w : W) :
  (call c log ≫= k) w =
    match k (c w).1 (c w).2 with
    | mkOutcome r w2 t => mkOutcome r w2 (log (c w).1 :: t)
    end.
Proof. unfold mbind, M_bind, bind, call. by destruct (c w). Qed.

Lemma run_bind_call {A} (c : Effect W A) log (k : A → M W unit) (w : W) :
  run (call c log ≫= k) w =
    match run (k (c w).1) (c w).2 with
    | mkOutcome r w2 t => mkOutcome r w2 (log (c w).1 :: t)
    end.
Proof.
  unfold run. rewrite bind_call.
  by destruct (k (c w).1 (c w).2) as [[?|?] ? ?].
Qed.

Lemma run_returnIf (err : option Err) wrap (w : W) :
  run (returnIf err wrap) w = mkOutcome (wrap <$> err) w [].
Proof. by destruct err. Qed.
End MonadFacts.

(** Membership in a trace that is written out: [calls_elim] takes the
    hypotheses apart, [calls_intro] finds the element. *)
Ltac calls_elim :=
  repeat match goal with
         | H : ∃ _, _ ∈ _ |- _ => destruct H as [? H]
         | H : _ ∈ [] |- _ => apply elem_of_nil in H; destruct H
         | H : _ ∈ _ :: _ |- _ =>
             apply elem_of_cons in H; destruct H as [H|H];
             [first [discriminate H | injection H as ?; subst | idtac]|]
         end.

Ltac calls_intro := solve [repeat constructor].

Section CommitFacts.
Context {W : Type}.
Implicit Types (e : RecordEvent W) (w : W).

(** The commit stage, case by case. *)
Lemma run_commitAndCallback callback e w :
  run (Variadic.commitAndCallback callback e) w =
    let nx := Event_Next e w in
    match nx.1, callback with
    | Some err, _ =>
        mkOutcome (Some (Variadic.wrapCommit err)) nx.2 [CallNext (Some err)]
    | None, None => mkOutcome None nx.2 [CallNext None]
    | None, Some cb =>
        let r := cb e nx.2 in
        mkOutcome (Variadic.wrapCallback <$> r.1) r.2
                  [CallNext None; CallCallback r.1]
    end.
Proof.
  unfold Variadic.commitAndCallback. rewrite run_bind_call.
  destruct (Event_Next e w) as [[err|] w1]; cbn [fst snd returnIf].
  - unfold run. by rewrite bind_fail.
  - destruct callback as [cb|].
    + unfold run at 1. rewrite bind_ret.
      fold (run (call (cb e) CallCallback ≫= λ callbackErr,
                   returnIf callbackErr Variadic.wrapCallback) w1).
      rewrite run_bind_call, run_returnIf. done.
    + unfold run. by rewrite bind_ret.
Qed.

Lemma commitAndCallback_calls_Next callback e w :
  ∃ r, calls (run (Variadic.commitAndCallback callback e) w)
         !! 0 = Some (CallNext r).
Proof.
  rewrite run_commitAndCallback. simpl.
  destruct (Event_Next e w) as [[err|] w1]; simpl; [by eexists|].
  destruct callback; by eexists.
Qed.

Lemma commitAndCallback_no_api callback e w code msg data :
  result (run (Variadic.commitAndCallback callback e) w)
    ≠ Some (ErrApi code msg data).
Proof.
  rewrite run_commitAndCallback. simpl.
  destruct (Event_Next e w) as [[err|] w1]; simpl; [done|].
  destruct callback as [cb|]; simpl; [|done].
  by destruct (cb e w1) as [[cerr|] w2].
Qed.
End CommitFacts.

Section VariadicFacts.
Context {W : Type}.
Implicit Types (p : @Variadic.Policy W) (e : RecordEvent W) (w : W).

Lemma hook_setup_error p e w parseErr :
  Variadic.parseError p = Some parseErr →
  run (Variadic.hook p e) w = mkOutcome (Some (Variadic.errSetup parseErr)) w [].
Proof.
  intros Hp. unfold Variadic.hook, run. rewrite Hp. simpl returnIf.
  by rewrite bind_fail.
Qed.

Lemma hook_no_record p e w :
  Variadic.parseError p = None → Event_Record e = None →
  run (Variadic.hook p e) w = mkOutcome (Some errNoRecord) w [].
Proof.
  intros Hp Hr. unfold Variadic.hook, run. rewrite Hp, Hr.
  simpl returnIf. simpl orReturn. by rewrite bind_ret, bind_fail.
Qed.

Lemma hook_no_app p e w eRecord :
  Variadic.parseError p = None → Event_Record e = Some eRecord →
  Event_App e = None →
  run (Variadic.hook p e) w = mkOutcome (Some errNoApp) w [].
Proof.
  intros Hp Hr Ha. unfold Variadic.hook, run. rewrite Hp, Hr, Ha.
  simpl returnIf. simpl orReturn. by rewrite !bind_ret, bind_fail.
Qed.

Lemma hook_fetch_fails p e w eRecord eApp err w1 :
  Variadic.parseError p = None → Event_Record e = Some eRecord →
  Event_App e = Some eApp → fetch eApp eRecord w = (inl err, w1) →
  run (Variadic.hook p e) w =
    mkOutcome (Some (Variadic.errFetch eRecord err)) w1 [fetchCall eRecord].
Proof.
  intros Hp Hr Ha Hf. unfold Variadic.hook, run. rewrite Hp, Hr, Ha.
  simpl returnIf. simpl orReturn.
  rewrite !bind_ret, bind_call, Hf. cbn [fst snd]. by rewrite bind_fail.
Qed.

(** Past the fetch the hook is the loop and then the commit stage. *)
Lemma hook_reaches_loop p e w eRecord eApp originalRecord w1 :
  Variadic.parseError p = None → Event_Record e = Some eRecord →
  Event_App e = Some eApp → fetch eApp eRecord w = (inr originalRecord, w1) →
  run (Variadic.hook p e) w =
    match checkFields originalRecord eRecord
            (fieldsToCheck (Variadic.immutableFieldNames p) eRecord) with
    | Some err => mkOutcome (Some err) w1 [fetchCall eRecord]
    | None =>
        let o := run (Variadic.commitAndCallback (Variadic.userCallback p) e) w1 in
        mkOutcome (result o) (world o) (fetchCall eRecord :: calls o)
    end.
Proof.
  intros Hp Hr Ha Hf. unfold Variadic.hook, run. rewrite Hp, Hr, Ha.
  simpl returnIf. simpl orReturn.
  rewrite !bind_ret, bind_call, Hf. cbn [fst snd]. rewrite bind_ret.
  destruct (checkFields _ _ _) as [err|]; simpl returnIf.
  - by rewrite bind_fail.
  - rewrite bind_ret.
    by destruct (Variadic.commitAndCallback _ e w1) as [[?|?] ? ?].
Qed.

(** Every run of the hook ends in one of six ways. *)
Lemma hook_cases p e w :
  let o := run (Variadic.hook p e) w in
  (∃ parseErr, Variadic.parseError p = Some parseErr
     ∧ o = mkOutcome (Some (Variadic.errSetup parseErr)) w [])
  ∨ (Variadic.parseError p = None ∧ Event_Record e = None
     ∧ o = mkOutcome (Some errNoRecord) w [])
  ∨ (∃ eRecord, Variadic.parseError p = None
     ∧ Event_Record e = Some eRecord ∧ Event_App e = None
     ∧ o = mkOutcome (Some errNoApp) w [])
  ∨ (∃ eRecord eApp err w1, Variadic.parseError p = None
     ∧ Event_Record e = Some eRecord ∧ Event_App e = Some eApp
     ∧ fetch eApp eRecord w = (inl err, w1)
     ∧ o = mkOutcome (Some (Variadic.errFetch eRecord err)) w1
                     [fetchCall eRecord])
  ∨ (∃ eRecord eApp originalRecord w1 i f, Variadic.parseError p = None
     ∧ Event_Record e = Some eRecord ∧ Event_App e = Some eApp
     ∧ fetch eApp eRecord w = (inr originalRecord, w1)
     ∧ FirstOffender originalRecord eRecord
         (fieldsToCheck (Variadic.immutableFieldNames p) eRecord) i f
     ∧ o = mkOutcome (Some (ImmutabilityViolation f (Record_Id eRecord))) w1
                     [fetchCall eRecord])
  ∨ (∃ eRecord eApp originalRecord w1, Variadic.parseError p = None
     ∧ Event_Record e = Some eRecord ∧ Event_App e = Some eApp
     ∧ fetch eApp eRecord w = (inr originalRecord, w1)
     ∧ (∀ f, f ∈ fieldsToCheck (Variadic.immutableFieldNames p) eRecord →
             ¬ Offends originalRecord eRecord f)
     ∧ o = let c := run (Variadic.commitAndCallback
                           (Variadic.userCallback p) e) w1 in
           mkOutcome (result c) (world c) (fetchCall eRecord :: calls c)).
Proof.
  intros o. subst o.
  destruct (Variadic.parseError p) as [parseErr|] eqn:Hp.
  { left. exists parseErr. split; [done|]. by apply hook_setup_error. }
  right. destruct (Event_Record e) as [eRecord|] eqn:Hr; cycle 1.
  { left. split_and!; [done..|]. by apply hook_no_record. }
  right. destruct (Event_App e) as [eApp|] eqn:Ha; cycle 1.
  { left. exists eRecord. split_and!; [done..|]. by eapply hook_no_app. }
  right. destruct (fetch eApp eRecord w) as [[err|originalRecord] w1] eqn:Hf.
  { left. exists eRecord, eApp, err, w1. split_and!; [done..|].
    by eapply hook_fetch_fails. }
  right.
  rewrite (hook_reaches_loop p e w eRecord eApp originalRecord w1) by done.
  destruct (checkFields originalRecord eRecord _) as [err|] eqn:HC.
  - left. apply checkFields_Some in HC as (i & f & HF & ->).
    by exists eRecord, eApp, originalRecord, w1, i, f.
  - right. pose proof (proj1 (checkFields_None _ _ _) HC) as Hnone.
    by exists eRecord, eApp, originalRecord, w1.
Qed.

(** Two policies that agree on the parse error and the callback, and whose
    names make the loop decide alike, give the same hook. *)
Lemma hook_ext p q e w :
  Variadic.parseError p = Variadic.parseError q →
  Variadic.userCallback p = Variadic.userCallback q →
  (∀ originalRecord eRecord,
     checkFields originalRecord eRecord
       (fieldsToCheck (Variadic.immutableFieldNames p) eRecord)
     = checkFields originalRecord eRecord
         (fieldsToCheck (Variadic.immutableFieldNames q) eRecord)) →
  run (Variadic.hook p e) w = run (Variadic.hook q e) w.
Proof.
  intros Hpe Hcb Hloop.
  destruct (Variadic.parseError q) as [parseErr|] eqn:Hq.
  { by rewrite !(hook_setup_error _ e w parseErr). }
  destruct (Event_Record e) as [eRecord|] eqn:Hr; cycle 1.
  { by rewrite !hook_no_record. }
  destruct (Event_App e) as [eApp|] eqn:Ha; cycle 1.
  { by rewrite !(hook_no_app _ e w eRecord). }
  destruct (fetch eApp eRecord w) as [[err|originalRecord] w1] eqn:Hf.
  { by rewrite !(hook_fetch_fails _ e w eRecord eApp err w1). }
  rewrite !(hook_reaches_loop _ e w eRecord eApp originalRecord w1) by done.
  by rewrite Hloop, Hcb.
Qed.
End VariadicFacts.

(** ** Parsing the arguments *)

Section ParseFacts.
Context {W : Type}.
Implicit Types (args rest : list (Arg W)) (names : list string).

(** A run of strings is taken as it stands. *)
Lemma parseArgs_strings i (ss : list string) rest names callback :
  Variadic.parseArgs i ((ArgString <$> ss) ++ rest) names callback =
    Variadic.parseArgs (i + length ss) rest (names ++ ss) callback.
Proof.
  revert i names. induction ss as [|s ss IH]; intros i names; simpl.
  - by rewrite Nat.add_0_r, app_nil_r.
  - rewrite IH. f_equal; [lia|]. by rewrite <- app_assoc.
Qed.

Lemma parseArgs_only_strings (ss : list string) :
  Variadic.parseArgs (W:=W) 0 (ArgString <$> ss) [] None =
    {| Variadic.immutableFieldNames := ss;
       Variadic.userCallback := None;
       Variadic.parseError := None |}.
Proof.
  rewrite <- (app_nil_r (ArgString <$> ss)). by rewrite parseArgs_strings.
Qed.

(** A parse error ends the loop: what follows is not looked at. *)
Lemma parseArgs_error_app i args rest names callback parseErr :
  Variadic.parseError (Variadic.parseArgs i args names callback)
    = Some parseErr →
  Variadic.parseArgs i (args ++ rest) names callback =
    Variadic.parseArgs i args names callback.
Proof.
  revert i names callback.
  induction args as [|[v|v|goType] args IH]; intros i names callback; simpl.
  - done.
  - apply IH.
  - destruct callback; [done|]. apply IH.
  - done.
Qed.

(** Without a parse error, one more string is one more name. *)
Lemma parseArgs_snoc_string i args names callback s :
  Variadic.parseError (Variadic.parseArgs i args names callback) = None →
  Variadic.parseArgs i (args ++ [ArgString s]) names callback =
    {| Variadic.immutableFieldNames :=
         Variadic.immutableFieldNames
           (Variadic.parseArgs i args names callback) ++ [s];
       Variadic.userCallback :=
         Variadic.userCallback (Variadic.parseArgs i args names callback);
       Variadic.parseError := None |}.
Proof.
  revert i names callback.
  induction args as [|[v|v|goType] args IH]; intros i names callback; simpl.
  - done.
  - apply IH.
  - destruct callback; [done|]. apply IH.
  - done.
Qed.

(** Without a parse error every string argument became a name, and the
    names collected before stay. *)
Lemma parseArgs_names i args names callback s :
  Variadic.parseError (Variadic.parseArgs i args names callback) = None →
  ArgString s ∈ args ∨ s ∈ names →
  s ∈ Variadic.immutableFieldNames (Variadic.parseArgs i args names callback).
Proof.
  revert i names callback.
  induction args as [|[v|v|goType] args IH]; intros i names callback; simpl.
  - intros _ [Hin|Hin]; [by apply elem_of_nil in Hin|done].
  - intros Hp Hin. apply IH; [done|].
    destruct Hin as [Hin|Hin].
    + apply elem_of_cons in Hin as [[= ->]|Hin]; [|by left].
      right. apply elem_of_app. right. by apply list_elem_of_singleton.
    + right. apply elem_of_app. by left.
  - destruct callback; [done|]. intros Hp Hin. apply IH; [done|].
    destruct Hin as [Hin|Hin]; [|by right].
    apply elem_of_cons in Hin as [[=]|Hin]. by left.
  - done.
Qed.
End ParseFacts.

(** ** The second revision *)

Section StringsOnlyFacts.
Context {W : Type}.
Implicit Types (e : RecordEvent W) (w : W) (names : list string).

Lemma strings_hook_no_record names e w :
  Event_Record e = None →
  run (StringsOnly.hook names e) w = mkOutcome (Some errNoRecord) w [].
Proof.
  intros Hr. unfold StringsOnly.hook, run. rewrite Hr.
  simpl orReturn. by rewrite bind_fail.
Qed.

Lemma strings_hook_no_app names e w eRecord :
  Event_Record e = Some eRecord → Event_App e = None →
  run (StringsOnly.hook names e) w = mkOutcome (Some errNoApp) w [].
Proof.
  intros Hr Ha. unfold StringsOnly.hook, run. rewrite Hr, Ha.
  simpl orReturn. by rewrite bind_ret, bind_fail.
Qed.

Lemma strings_hook_fetch_fails names e w eRecord eApp err w1 :
  Event_Record e = Some eRecord → Event_App e = Some eApp →
  fetch eApp eRecord w = (inl err, w1) →
  run (StringsOnly.hook names e) w =
    mkOutcome (Some (StringsOnly.errFetch eRecord err)) w1 [fetchCall eRecord].
Proof.
  intros Hr Ha Hf. unfold StringsOnly.hook, run. rewrite Hr, Ha.
  simpl orReturn.
  rewrite !bind_ret, bind_call, Hf. cbn [fst snd]. by rewrite bind_fail.
Qed.

(** Past the fetch the second revision is the loop and nothing more. *)
Lemma strings_hook_reaches_loop names e w eRecord eApp originalRecord w1 :
  Event_Record e = Some eRecord → Event_App e = Some eApp →
  fetch eApp eRecord w = (inr originalRecord, w1) →
  run (StringsOnly.hook names e) w =
    mkOutcome (checkFields originalRecord eRecord
                 (fieldsToCheck names eRecord))
              w1 [fetchCall eRecord].
Proof.
  intros Hr Ha Hf. unfold StringsOnly.hook, run. rewrite Hr, Ha.
  simpl orReturn.
  rewrite !bind_ret, bind_call, Hf. cbn [fst snd]. rewrite bind_ret.
  by destruct (checkFields _ _ _).
Qed.
End StringsOnlyFacts.

(** ** The second revision against the first *)

Section RevisionFacts.
Context {W : Type}.
Implicit Types (e : RecordEvent W) (w : W) (names : list string).

(** The runs of the two hooks side by side: the same up to the end of the
    loop but for the text of the fetch error; after it only the first
    revision goes on. *)
Lemma hooks_side_by_side names e w :
  let v := run (Variadic.hook (namesOnly names) e) w in
  let s := run (StringsOnly.hook names e) w in
  (Event_Record e = None
     ∧ v = mkOutcome (Some errNoRecord) w []
     ∧ s = mkOutcome (Some errNoRecord) w [])
  ∨ (∃ eRecord, Event_Record e = Some eRecord ∧ Event_App e = None
     ∧ v = mkOutcome (Some errNoApp) w []
     ∧ s = mkOutcome (Some errNoApp) w [])
  ∨ (∃ eRecord eApp err w1,
       Event_Record e = Some eRecord ∧ Event_App e = Some eApp
       ∧ fetch eApp eRecord w = (inl err, w1)
       ∧ v = mkOutcome (Some (Variadic.errFetch eRecord err)) w1
                       [fetchCall eRecord]
       ∧ s = mkOutcome (Some (StringsOnly.errFetch eRecord err)) w1
                       [fetchCall eRecord])
  ∨ (∃ eRecord eApp originalRecord w1 i f,
       Event_Record e = Some eRecord ∧ Event_App e = Some eApp
       ∧ fetch eApp eRecord w = (inr originalRecord, w1)
       ∧ FirstOffender originalRecord eRecord (fieldsToCheck names eRecord) i f
       ∧ v = mkOutcome (Some (ImmutabilityViolation f (Record_Id eRecord))) w1
                       [fetchCall eRecord]
       ∧ s = v)
  ∨ (∃ eRecord eApp originalRecord w1,
       Event_Record e = Some eRecord ∧ Event_App e = Some eApp
       ∧ fetch eApp eRecord w = (inr originalRecord, w1)
       ∧ (∀ f, f ∈ fieldsToCheck names eRecord →
               ¬ Offends originalRecord eRecord f)
       ∧ v = mkOutcome (Variadic.wrapCommit <$> (Event_Next e w1).1)
                       (Event_Next e w1).2
                       [fetchCall eRecord; CallNext (Event_Next e w1).1]
       ∧ s = mkOutcome None w1 [fetchCall eRecord]).
Proof.
  intros v s. subst v s.
  destruct (Event_Record e) as [eRecord|] eqn:Hr; cycle 1.
  { left. by rewrite hook_no_record, strings_hook_no_record. }
  right. destruct (Event_App e) as [eApp|] eqn:Ha; cycle 1.
  { left. exists eRecord.
    by rewrite (hook_no_app _ e w eRecord),
               (strings_hook_no_app _ e w eRecord). }
  right. destruct (fetch eApp eRecord w) as [[err|originalRecord] w1] eqn:Hf.
  { left. exists eRecord, eApp, err, w1.
    by rewrite (hook_fetch_fails _ e w eRecord eApp err w1),
               (strings_hook_fetch_fails _ e w eRecord eApp err w1). }
  right.
  rewrite (hook_reaches_loop _ e w eRecord eApp originalRecord w1) by done.
  rewrite (strings_hook_reaches_loop _ e w eRecord eApp originalRecord w1)
    by done.
  cbn [namesOnly Variadic.immutableFieldNames Variadic.userCallback].
  destruct (checkFields originalRecord eRecord (fieldsToCheck names eRecord))
    as [err|] eqn:HC.
  - left. apply checkFields_Some in HC as (i & f & HF & ->).
    by exists eRecord, eApp, originalRecord, w1, i, f.
  - right. pose proof (proj1 (checkFields_None _ _ _) HC) as Hnone.
    exists eRecord, eApp, originalRecord, w1. split_and!; [done..| |done].
    rewrite run_commitAndCallback. cbn zeta.
    by destruct (Event_Next e w1) as [[nerr|] w2].
Qed.
End RevisionFacts.

(** * The scenarios of the spec, run *)

(** A: "name" protected, only the status changed: the record is saved. *)
Example scenario_A :
  Variadic.MakeImmutable [ArgString "name"]
    (Scenario.event Scenario.statusChanged) Scenario.db0
  = mkOutcome None {[ "r1" := Scenario.statusChanged ]}
              [fetchCall Scenario.statusChanged; CallNext None].
Proof. reflexivity. Qed.

(** B: "name" protected and changed. *)
Example scenario_B :
  Variadic.MakeImmutable [ArgString "name"]
    (Scenario.event Scenario.nameChanged) Scenario.db0
  = mkOutcome (Some (ImmutabilityViolation "name" "r1")) Scenario.db0
              [fetchCall Scenario.nameChanged].
Proof. reflexivity. Qed.

(** C: nothing named, the value changed. *)
Example scenario_C :
  Variadic.MakeImmutable [] (Scenario.event Scenario.valueChanged) Scenario.db0
  = mkOutcome (Some (ImmutabilityViolation "value" "r1")) Scenario.db0
              [fetchCall Scenario.valueChanged].
Proof. reflexivity. Qed.

(** D: a failing callback after a commit that went through. *)
Example scenario_D :
  Variadic.MakeImmutable
    [ArgString "name"; ArgFunc (Some Scenario.failingCallback)]
    (Scenario.event Scenario.statusChanged) Scenario.db0
  = mkOutcome
      (Some (Variadic.wrapCallback (ErrNew "callback_forced_error")))
      {[ "r1" := Scenario.statusChanged ]}
      [fetchCall Scenario.statusChanged; CallNext None;
       CallCallback (Some (ErrNew "callback_forced_error"))].
Proof. reflexivity. Qed.

(** E: two callbacks. *)
Example scenario_E :
  Variadic.MakeImmutable
    [ArgString "f1"; ArgString "f2"; ArgFunc (Some Scenario.okCallback);
     ArgFunc (Some Scenario.failingCallback)]
    (Scenario.event Scenario.statusChanged) Scenario.db0
  = mkOutcome (Some (Variadic.errSetup Variadic.errOnlyOneCallback))
              Scenario.db0 [].
Proof. reflexivity. Qed.

(** A commit that fails: the callback is not run. *)
Example scenario_commit_fails :
  Variadic.MakeImmutable
    [ArgString "name"; ArgFunc (Some Scenario.failingCallback)]
    (Scenario.eventSaveFails Scenario.statusChanged) Scenario.db0
  = mkOutcome (Some (Variadic.wrapCommit (ErrNew "database is locked")))
              Scenario.db0
              [fetchCall Scenario.statusChanged;
               CallNext (Some (ErrNew "database is locked"))].
Proof. reflexivity. Qed.

(** Only "updated" changed, and "updated" is named: the record is saved. *)
Example scenario_updated_named :
  Variadic.MakeImmutable [ArgString "updated"; ArgString "name"]
    (Scenario.event Scenario.updatedChanged) Scenario.db0
  = mkOutcome None {[ "r1" := Scenario.updatedChanged ]}
              [fetchCall Scenario.updatedChanged; CallNext None].
Proof. reflexivity. Qed.

(** A nil function first: the callback after it is taken, without error. *)
Example scenario_nil_function_first :
  Variadic.parseArgs 0
    [ArgFunc None; ArgFunc (Some Scenario.okCallback)] [] None
  = {| Variadic.immutableFieldNames := [];
       Variadic.userCallback := Some Scenario.okCallback;
       Variadic.parseError := None |}.
Proof. reflexivity. Qed.

(** The text of the setup error, as the argument-parsing test looks for it. *)
Example setup_error_text :
  Error (Variadic.errSetup (Variadic.errInvalidArgument "int" 0))
  = "MakeImmutable setup error: pbimmutable.MakeImmutable: invalid argument type int at position 0".
Proof. reflexivity. Qed.

(** * The guard's properties *)

(** C1. With a non-empty protected set and an evaluation that reaches the
    loop (no parse error, record and app present, fetch succeeded): a
    violation is returned exactly when some protected attribute other than
    the modification timestamp differs; it is the violation of the first such
    attribute in the order given, carrying the name, the reason "immutable"
    and the record's identifier, and then nothing but the fetch was called;
    when none differs, whatever the other attributes hold, the hook calls
    [e.Next()] on the host state the fetch left, and the run is what that
    call and, after it, the callback make of it. *)
Theorem C1_protected_set_decision {W} (args : list (Arg W)) names callback
    (e : RecordEvent W) eRecord eApp originalRecord (w w1 : W) :
  Variadic.parseArgs 0 args [] None =
    {| Variadic.immutableFieldNames := names;
       Variadic.userCallback := callback;
       Variadic.parseError := None |} →
  names ≠ [] →
  Event_Record e = Some eRecord →
  Event_App e = Some eApp →
  fetch eApp eRecord w = (inr originalRecord, w1) →
  let o := Variadic.MakeImmutable args e w in
  ((∃ f recordId, result o = Some (ImmutabilityViolation f recordId))
   ↔ ∃ f, f ∈ names ∧ Offends originalRecord eRecord f)
  ∧ (∀ i f, FirstOffender originalRecord eRecord names i f →
       result o =
         Some (NewBadRequestError
                 ("Attempt to modify immutable field '" +:+ f +:+ "'.")
                 (DataMap [("field", VString f);
                           ("reason", VString "immutable");
                           ("recordId", VString (Record_Id eRecord))]))
       ∧ world o = w1
       ∧ calls o = [fetchCall eRecord])
  ∧ ((∀ f, f ∈ names → ¬ Offends originalRecord eRecord f) →
       calls o !! 0 = Some (fetchCall eRecord)
       ∧ calls o !! 1 = Some (CallNext (Event_Next e w1).1)
       ∧ (∀ err, (Event_Next e w1).1 = Some err →
            o = mkOutcome
                  (Some (ErrWrap
                     "failed to commit record changes via e.Next() after immutability checks"
                     err))
                  (Event_Next e w1).2
                  [fetchCall eRecord; CallNext (Some err)])
       ∧ ((Event_Next e w1).1 = None → callback = None →
            o = mkOutcome None (Event_Next e w1).2
                  [fetchCall eRecord; CallNext None])
       ∧ (∀ cb, (Event_Next e w1).1 = None → callback = Some cb →
            o = mkOutcome
                  (ErrWrap "user callback failed AFTER record commit"
                     <$> (cb e (Event_Next e w1).2).1)
                  (cb e (Event_Next e w1).2).2
                  [fetchCall eRecord; CallNext None;
                   CallCallback (cb e (Event_Next e w1).2).1])).
Proof.
  intros Hparse Hne Hr Ha Hf o.
  assert (o = match checkFields originalRecord eRecord names with
              | Some err => mkOutcome (Some err) w1 [fetchCall eRecord]
              | None =>
                  let c := run (Variadic.commitAndCallback callback e) w1 in
                  mkOutcome (result c) (world c) (fetchCall eRecord :: calls c)
              end) as Ho.
  { subst o. unfold Variadic.MakeImmutable. rewrite Hparse.
    rewrite (hook_reaches_loop _ e w eRecord eApp originalRecord w1)
      by done.
    simpl. unfold fieldsToCheck. by destruct names. }
  clearbody o. subst o. split_and!.
  - split.
    + intros (f & rid & Hres).
      destruct (checkFields originalRecord eRecord names) as [err|] eqn:HC.
      * apply checkFields_Some in HC as (i & g & (Hi & Hg & _) & _).
        exists g. split; [|done]. by eapply list_elem_of_lookup_2.
      * simpl in Hres. by apply commitAndCallback_no_api in Hres.
    + intros (f & Hin & Hoff).
      destruct (Offends_has_first _ _ _ _ Hin Hoff) as (i & g & HF).
      rewrite (checkFields_first _ _ _ i g HF). simpl. eauto.
  - intros i f HF. by rewrite (checkFields_first _ _ _ i f HF).
  - intros Hnone. apply checkFields_None in Hnone. rewrite Hnone.
    rewrite run_commitAndCallback. cbn zeta.
    destruct (Event_Next e w1) as [[nerr|] w2]; cbn [fst snd].
    + split_and!; [done|done| |done|done]. by intros err [= ->].
    + destruct callback as [cb|]; cbn [result world calls];
        split_and!; try done.
      by intros cb' _ [= ->].
Qed.

Lemma C1_protected_set_decision_witness :
  (result (Variadic.MakeImmutable [ArgString "name"]
             (Scenario.event Scenario.nameChanged) Scenario.db0)
     = Some (NewBadRequestError "Attempt to modify immutable field 'name'."
               (DataMap [("field", VString "name");
                         ("reason", VString "immutable");
                         ("recordId", VString "r1")]))
   ∧ world (Variadic.MakeImmutable [ArgString "name"]
              (Scenario.event Scenario.nameChanged) Scenario.db0) = Scenario.db0
   ∧ calls (Variadic.MakeImmutable [ArgString "name"]
              (Scenario.event Scenario.nameChanged) Scenario.db0)
       = [fetchCall Scenario.nameChanged])
  ∧ Variadic.MakeImmutable [ArgString "name"]
      (Scenario.event Scenario.statusChanged) Scenario.db0
    = mkOutcome None {[ "r1" := Scenario.statusChanged ]}
                [fetchCall Scenario.statusChanged; CallNext None].
Proof.
  split.
  - refine (proj1 (proj2 (C1_protected_set_decision
              [ArgString "name"] ["name"] None
              (Scenario.event Scenario.nameChanged) Scenario.nameChanged
              Scenario.app Scenario.stored Scenario.db0 Scenario.db0
              _ _ _ _ _)) 0 "name" _).
    + reflexivity.
    + discriminate.
    + reflexivity.
    + reflexivity.
    + reflexivity.
    + split_and!.
      * reflexivity.
      * vm_compute. split; [reflexivity | discriminate].
      * intros j g _ Hj. lia.
  - refine (proj1 (proj2 (proj2 (proj2 (proj2 (proj2
              (C1_protected_set_decision
                 [ArgString "name"] ["name"] None
                 (Scenario.event Scenario.statusChanged) Scenario.statusChanged
                 Scenario.app Scenario.stored Scenario.db0 Scenario.db0
                 _ _ _ _ _)) _)))) _ _).
    + reflexivity.
    + discriminate.
    + reflexivity.
    + reflexivity.
    + reflexivity.
    + intros f Hf [HC _]. apply list_elem_of_singleton in Hf as ->.
      vm_compute in HC. discriminate HC.
    + reflexivity.
    + reflexivity.
Defined.





(** C4, as amended.  When a callback is followed by a second argument of
    the callback's type, with nothing but strings before and between them,
    [MakeImmutable] still returns a hook; parsing has stopped at the second
    one (the names are the strings before it, whatever follows is not read)
    with the error "only one callback function can be provided"; and every
    run of the hook returns that error as a setup error, leaving the host
    untouched and calling neither the fetch nor the commit. *)
Theorem C4_second_callback_setup_error {W} (before between : list string)
    (first : Callback W) (second : option (Callback W)) (rest : list (Arg W))
    (e : RecordEvent W) (w : W) :
  let args := (ArgString <$> before) ++ ArgFunc (Some first)
              :: (ArgString <$> between) ++ ArgFunc second :: rest in
  Variadic.parseArgs 0 args [] None =
    {| Variadic.immutableFieldNames := before ++ between;
       Variadic.userCallback := Some first;
       Variadic.parseError := Some Variadic.errOnlyOneCallback |}
  ∧ Error Variadic.errOnlyOneCallback =
      "pbimmutable.MakeImmutable: only one callback function can be provided"
  ∧ Variadic.MakeImmutable args e w =
      mkOutcome (Some (Variadic.errSetup Variadic.errOnlyOneCallback)) w [].
Proof.
  intros args.
  assert (Variadic.parseArgs 0 args [] None =
            {| Variadic.immutableFieldNames := before ++ between;
               Variadic.userCallback := Some first;
               Variadic.parseError := Some Variadic.errOnlyOneCallback |})
    as Hparse.
  { subst args. rewrite parseArgs_strings. simpl.
    rewrite parseArgs_strings. done. }
  split_and!; [done|done|].
  unfold Variadic.MakeImmutable. rewrite Hparse.
  by apply hook_setup_error.
Qed.

(** C4 as first stated fails when an argument of another type stands before
    the second callback: parsing stops there, with the other error. *)
Lemma C4_counterexample :
  Variadic.parseError
    (Variadic.parseArgs 0
       [ArgFunc (Some Scenario.okCallback); ArgOther "int";
        ArgFunc (Some Scenario.okCallback)] [] None)
  = Some (Variadic.errInvalidArgument "int" 1)
  ∧ Error (Variadic.errInvalidArgument "int" 1) =
      "pbimmutable.MakeImmutable: invalid argument type int at position 1"
  ∧ Variadic.MakeImmutable
      [ArgFunc (Some Scenario.okCallback); ArgOther "int";
       ArgFunc (Some Scenario.okCallback)]
      Scenario.dummyEvent Scenario.db0
    = mkOutcome (Some (Variadic.errSetup (Variadic.errInvalidArgument "int" 1)))
                Scenario.db0 []
  ∧ Variadic.errSetup (Variadic.errInvalidArgument "int" 1)
    ≠ Variadic.errSetup Variadic.errOnlyOneCallback.
Proof. split_and!; [reflexivity|reflexivity|reflexivity|discriminate]. Qed.

(** C5. The modification timestamp never produces a violation: whatever
    the arguments and the event, the hook does not return the violation of
    "updated"; and in the loop a list with "updated" in it gives what the
    list without it gives, so the check goes on with the next attribute. *)
Theorem C5_updated_is_tolerated {W} (args : list (Arg W))
    (e : RecordEvent W) (w : W) :
  (∀ recordId,
     result (Variadic.MakeImmutable args e w)
       ≠ Some (ImmutabilityViolation SystemFieldUpdated recordId))
  ∧ (∀ originalRecord eRecord pre rest,
       checkFields originalRecord eRecord (pre ++ SystemFieldUpdated :: rest)
       = checkFields originalRecord eRecord (pre ++ rest)).
Proof.
  split; [|intros; apply checkFields_skip_updated].
  intros recordId. unfold Variadic.MakeImmutable.
  destruct (hook_cases (Variadic.parseArgs 0 args [] None) e w)
    as [(? & _ & ->)|[(_ & _ & ->)|[(? & _ & _ & _ & ->)|
        [(? & ? & ? & ? & _ & _ & _ & _ & ->)|
         [(? & ? & ? & ? & i & f & _ & _ & _ & _ & HF & ->)|
          (? & ? & ? & ? & _ & _ & _ & _ & _ & ->)]]]]];
    cbn [result]; try discriminate.
  - destruct HF as (_ & [_ Hne] & _). intros [= Hf]. done.
  - apply commitAndCallback_no_api.
Qed.

(** C7, as amended.  The hook looks at the parse error first: with one it
    returns the setup error whatever the event holds, also when the record
    is missing.  Only without a parse error does it check that the record
    and then the app handle are present, each with its own error.  None of
    the three touches the host or calls the fetch or the commit, and the
    three errors differ from each other and from any violation. *)
Theorem C7_setup_error_comes_first {W} (args : list (Arg W))
    (e : RecordEvent W) (w : W) :
  let p := Variadic.parseArgs 0 args [] None in
  let o := Variadic.MakeImmutable args e w in
  (∀ parseErr, Variadic.parseError p = Some parseErr →
     o = mkOutcome (Some (Variadic.errSetup parseErr)) w [])
  ∧ (Variadic.parseError p = None → Event_Record e = None →
     o = mkOutcome (Some errNoRecord) w [])
  ∧ (∀ eRecord, Variadic.parseError p = None →
     Event_Record e = Some eRecord → Event_App e = None →
     o = mkOutcome (Some errNoApp) w [])
  ∧ (∀ parseErr, Variadic.errSetup parseErr ≠ errNoRecord
                 ∧ Variadic.errSetup parseErr ≠ errNoApp)
  ∧ errNoRecord ≠ errNoApp
  ∧ (∀ f recordId, errNoRecord ≠ ImmutabilityViolation f recordId
                   ∧ errNoApp ≠ ImmutabilityViolation f recordId).
Proof.
  intros p o. subst p o. unfold Variadic.MakeImmutable. split_and!.
  - intros parseErr Hp. by apply hook_setup_error.
  - intros Hp Hr. by apply hook_no_record.
  - intros eRecord Hp Hr Ha. by eapply hook_no_app.
  - intros parseErr. split; discriminate.
  - discriminate.
  - intros f recordId. split; discriminate.
Qed.

Lemma C7_setup_error_comes_first_witness :
  Variadic.MakeImmutable
    [ArgFunc (Some Scenario.okCallback); ArgFunc (Some Scenario.okCallback)]
    Scenario.dummyEvent Scenario.db0
  = mkOutcome (Some (Variadic.errSetup Variadic.errOnlyOneCallback))
              Scenario.db0 [].
Proof.
  refine (proj1 (C7_setup_error_comes_first
            [ArgFunc (Some Scenario.okCallback);
             ArgFunc (Some Scenario.okCallback)]
            Scenario.dummyEvent Scenario.db0)
            Variadic.errOnlyOneCallback _).
  reflexivity.
Defined.


(** C7 as first stated fails: a guard built from an argument of a wrong
    type, run on the empty event (no record, no app), returns the setup
    error, not the error of the missing record. *)
Lemma C7_counterexample :
  Event_Record Scenario.dummyEvent = None
  ∧ Variadic.MakeImmutable [ArgOther "int"; ArgString "field1"]
      Scenario.dummyEvent Scenario.db0
    = mkOutcome (Some (Variadic.errSetup (Variadic.errInvalidArgument "int" 0)))
                Scenario.db0 []
  ∧ Variadic.errSetup (Variadic.errInvalidArgument "int" 0) ≠ errNoRecord.
Proof. split_and!; [reflexivity|reflexivity|discriminate]. Qed.

(** C6, as amended.  For an evaluation that reaches the loop: with an empty
    protected set the system attributes are not in the list checked, so when
    no attribute outside the SystemAttributeSet differs no violation is
    returned; the modification timestamp is never reported, under any
    protected set; but a system attribute other than the modification
    timestamp that is named in the protected set is checked like any other
    name, and when it differs a violation is returned. *)
Theorem C6_system_fields {W} (args : list (Arg W)) names callback
    (e : RecordEvent W) eRecord eApp originalRecord (w w1 : W) :
  Variadic.parseArgs 0 args [] None =
    {| Variadic.immutableFieldNames := names;
       Variadic.userCallback := callback;
       Variadic.parseError := None |} →
  Event_Record e = Some eRecord →
  Event_App e = Some eApp →
  fetch eApp eRecord w = (inr originalRecord, w1) →
  let o := Variadic.MakeImmutable args e w in
  (names = [] →
   (∀ f, f ∉ SystemAttributeSet → ¬ Changed originalRecord eRecord f) →
   ∀ f recordId, result o ≠ Some (ImmutabilityViolation f recordId))
  ∧ (∀ recordId,
       result o ≠ Some (ImmutabilityViolation SystemFieldUpdated recordId))
  ∧ (∀ f, f ∈ names → f ∈ SystemAttributeSet → f ≠ SystemFieldUpdated →
       Changed originalRecord eRecord f →
       ∃ i g, FirstOffender originalRecord eRecord names i g
              ∧ result o = Some (ImmutabilityViolation g (Record_Id eRecord))).
Proof.
  intros Hparse Hr Ha Hf o.
  assert (o = match checkFields originalRecord eRecord
                      (fieldsToCheck names eRecord) with
              | Some err => mkOutcome (Some err) w1 [fetchCall eRecord]
              | None =>
                  let c := run (Variadic.commitAndCallback callback e) w1 in
                  mkOutcome (result c) (world c) (fetchCall eRecord :: calls c)
              end) as Ho.
  { subst o. unfold Variadic.MakeImmutable. rewrite Hparse.
    by rewrite (hook_reaches_loop _ e w eRecord eApp originalRecord w1). }
  clearbody o. subst o. split_and!.
  - intros -> Hsys f recordId.
    assert (checkFields originalRecord eRecord (fieldsToCheck [] eRecord)
            = None) as ->.
    { apply checkFields_None. intros g Hg [HC _].
      apply (Hsys g); [|done].
      by apply (userFields_not_system (Record_Schema eRecord)). }
    apply commitAndCallback_no_api.
  - intros recordId.
    destruct (checkFields _ _ _) as [err|] eqn:HC.
    + apply checkFields_Some in HC as (i & g & (_ & [_ Hne] & _) & ->).
      cbn [result]. intros [= Hg]. done.
    + apply commitAndCallback_no_api.
  - intros f Hin _ Hne HC.
    destruct (Offends_has_first originalRecord eRecord names f Hin)
      as (i & g & HF); [done|].
    exists i, g. split; [done|].
    assert (fieldsToCheck names eRecord = names) as ->.
    { unfold fieldsToCheck. destruct names; [|done].
      by apply elem_of_nil in Hin. }
    by rewrite (checkFields_first _ _ _ i g HF).
Qed.

Lemma C6_system_fields_witness :
  ∃ i g, FirstOffender Scenario.stored Scenario.createdChanged ["created"] i g
         ∧ result (Variadic.MakeImmutable [ArgString "created"]
                     (Scenario.event Scenario.createdChanged) Scenario.db0)
           = Some (ImmutabilityViolation g "r1").
Proof.
  refine (proj2 (proj2 (C6_system_fields
            [ArgString "created"] ["created"] None
            (Scenario.event Scenario.createdChanged) Scenario.createdChanged
            Scenario.app Scenario.stored Scenario.db0 Scenario.db0
            _ _ _ _)) "created" _ _ _ _).
  - reflexivity.
  - reflexivity.
  - reflexivity.
  - reflexivity.
  - repeat constructor.
  - apply isSystemField_spec. reflexivity.
  - discriminate.
  - reflexivity.
Defined.

(** C6 as first stated fails: with "created" named in the protected set and
    the two records differing in nothing but "created", the hook returns the
    violation of "created". *)
Lemma C6_counterexample :
  SystemFieldCreated ∈ SystemAttributeSet
  ∧ (∀ f, f ≠ SystemFieldCreated →
          DeepEqual (Record_Get Scenario.stored f)
                    (Record_Get Scenario.createdChanged f) = true)
  ∧ Variadic.MakeImmutable [ArgString SystemFieldCreated]
      (Scenario.event Scenario.createdChanged) Scenario.db0
    = mkOutcome (Some (ImmutabilityViolation SystemFieldCreated "r1"))
                Scenario.db0 [fetchCall Scenario.createdChanged].
Proof.
  split_and!.
  - apply isSystemField_spec. reflexivity.
  - intros f Hf. unfold Record_Get, Scenario.stored, Scenario.createdChanged,
      Scenario.item, Scenario.mkRecord.
    cbn [Record_data list_to_map foldr fst snd uncurry].
    destruct (decide (f = "name")) as [->|?]; [reflexivity|].
    destruct (decide (f = "value")) as [->|?]; [reflexivity|].
    destruct (decide (f = "status")) as [->|?]; [reflexivity|].
    destruct (decide (f = "updated")) as [->|?]; [reflexivity|].
    rewrite !lookup_insert_ne by done. rewrite lookup_empty. reflexivity.
  - reflexivity.
Qed.




(** C9. A string argument that already stands among the arguments changes
    nothing when it is given once more at the end: the two hooks return the
    same error or nil, leave the same host state and make the same calls, on
    every event. *)
Theorem C9_repeated_name_is_no_op {W} (args : list (Arg W)) (s : string)
    (e : RecordEvent W) (w : W) :
  ArgString s ∈ args →
  Variadic.MakeImmutable (args ++ [ArgString s]) e w
  = Variadic.MakeImmutable args e w.
Proof.
  intros Hin. unfold Variadic.MakeImmutable.
  destruct (Variadic.parseError (Variadic.parseArgs 0 args [] None))
    as [parseErr|] eqn:Hp.
  { by rewrite (parseArgs_error_app _ _ _ _ _ parseErr). }
  rewrite parseArgs_snoc_string by done.
  pose proof (parseArgs_names 0 args [] None s Hp (or_introl Hin)) as Hs.
  apply hook_ext; cbn [Variadic.parseError Variadic.userCallback
                       Variadic.immutableFieldNames]; [done|done|].
  intros originalRecord eRecord. unfold fieldsToCheck.
  destruct (Variadic.immutableFieldNames _) as [|n names] eqn:Hn.
  { by apply elem_of_nil in Hs. }
  rewrite length_app. cbn [length Nat.add Nat.eqb].
  by apply checkFields_snoc_dup.
Qed.

Lemma C9_repeated_name_is_no_op_witness :
  Variadic.MakeImmutable
    ([ArgString "name"; ArgFunc (Some Scenario.failingCallback);
      ArgString "status"] ++ [ArgString "name"])
    (Scenario.event Scenario.statusChanged) Scenario.db0
  = Variadic.MakeImmutable
      [ArgString "name"; ArgFunc (Some Scenario.failingCallback);
       ArgString "status"]
      (Scenario.event Scenario.statusChanged) Scenario.db0.
Proof.
  apply (C9_repeated_name_is_no_op
           [ArgString "name"; ArgFunc (Some Scenario.failingCallback);
            ArgString "status"] "name"
           (Scenario.event Scenario.statusChanged) Scenario.db0).
  repeat constructor.
Defined.

(** C10, as amended.  On strings alone the two revisions decide alike.  A
    missing record, a missing app handle and a violation are returned by one
    exactly when the other returns them, as the same error.  A failed fetch
    makes both return a bad-request error built from the same cause, but the
    texts differ: the first revision's ends in "for immutability check.".
    Whenever the second revision returns an error the first has left the
    same host state and made the same calls; when the second returns nil the
    first has gone on to call [e.Next()] once and returns its error wrapped,
    or nil. *)
Theorem C10_revisions_agree_on_denial {W} (names : list string)
    (e : RecordEvent W) (w : W) :
  let v := Variadic.MakeImmutable (ArgString <$> names) e w in
  let s := StringsOnly.MakeImmutable names e w in
  (∀ err,
     err = errNoRecord ∨ err = errNoApp
     ∨ (∃ f recordId, err = ImmutabilityViolation f recordId) →
     result v = Some err ↔ result s = Some err)
  ∧ (∀ eRecord eApp cause w1,
       Event_Record e = Some eRecord → Event_App e = Some eApp →
       fetch eApp eRecord w = (inl cause, w1) →
       result v = Some (Variadic.errFetch eRecord cause)
       ∧ result s = Some (StringsOnly.errFetch eRecord cause))
  ∧ ((∃ eRecord cause, result v = Some (Variadic.errFetch eRecord cause))
     ↔ (∃ eRecord cause, result s = Some (StringsOnly.errFetch eRecord cause)))
  ∧ (∀ err, result s = Some err → world v = world s ∧ calls v = calls s)
  ∧ (result s = None →
     ∃ r, calls v = calls s ++ [CallNext r]
          ∧ result v = Variadic.wrapCommit <$> r).
Proof.
  intros v s. subst v s.
  unfold Variadic.MakeImmutable, StringsOnly.MakeImmutable.
  rewrite parseArgs_only_strings. fold (@namesOnly W names).
  destruct (hooks_side_by_side names e w)
    as [(Hr & -> & ->)|[(eRecord & Hr & Ha & -> & ->)|
        [(eRecord & eApp & err & w1 & Hr & Ha & Hf & -> & ->)|
         [(eRecord & eApp & originalRecord & w1 & i & f
             & Hr & Ha & Hf & HF & -> & ->)|
          (eRecord & eApp & originalRecord & w1
             & Hr & Ha & Hf & Hnone & -> & ->)]]]];
    cbn [result world calls].
  - split_and!; [done| |split; intros (? & ? & [=])|done|done].
    intros ? ? ? ? ?. congruence.
  - split_and!; [done| |split; intros (? & ? & [=])|done|done].
    intros ? ? ? ? ? ?. congruence.
  - split_and!; [|
      |split; intros _; by eexists _, _|done|done].
    + intros ? [->|[->|(? & ? & ->)]]; split; discriminate.
    + intros eRecord' eApp' cause w1' Hr' Ha' Hf'. split; congruence.
  - split_and!; [done| |split; intros (? & ? & [=])|done|done].
    intros eRecord' eApp' cause w1' Hr' Ha' Hf'. split; congruence.
  - split_and!.
    + intros ? [->|[->|(? & ? & ->)]];
        (split; [|discriminate]);
        by destruct (Event_Next e w1).1.
    + intros eRecord' eApp' cause w1' Hr' Ha' Hf'. split; congruence.
    + split; [|intros (? & ? & [=])].
      intros (? & ? & Hres). by destruct (Event_Next e w1).1.
    + discriminate.
    + intros _. by eexists.
Qed.

Lemma C10_revisions_agree_on_denial_witness :
  result (StringsOnly.MakeImmutable ["status"; "name"]
            (Scenario.event Scenario.nameChanged) Scenario.db0)
  = Some (ImmutabilityViolation "name" "r1").
Proof.
  refine (proj1 (proj1 (C10_revisions_agree_on_denial
            ["status"; "name"] (Scenario.event Scenario.nameChanged)
            Scenario.db0) (ImmutabilityViolation "name" "r1") _) _).
  - right. right. by exists "name", "r1".
  - reflexivity.
Defined.


(** C10 as first stated fails for the fetch error: for a record the
    database does not hold the two revisions return errors with different
    texts. *)
Lemma C10_counterexample :
  result (Variadic.MakeImmutable [ArgString "name"]
            (Scenario.event Scenario.unknownRecord) Scenario.db0)
  = Some (ErrApi 400
            "Failed to fetch original record r9 from collection test_items for immutability check."
            (DataErr (ErrNew "sql: no rows in result set")))
  ∧ result (StringsOnly.MakeImmutable ["name"]
              (Scenario.event Scenario.unknownRecord) Scenario.db0)
    = Some (ErrApi 400
              "Failed to fetch original record r9 from collection test_items."
              (DataErr (ErrNew "sql: no rows in result set")))
  ∧ result (Variadic.MakeImmutable [ArgString "name"]
              (Scenario.event Scenario.unknownRecord) Scenario.db0)
    ≠ result (StringsOnly.MakeImmutable ["name"]
                (Scenario.event Scenario.unknownRecord) Scenario.db0).
Proof. split_and!; [reflexivity|reflexivity|discriminate]. Qed.

(** * Further properties of the argument parsing *)

Section MoreParseFacts.
Context {W : Type}.
Implicit Types (args rest : list (Arg W)) (names : list string).

Lemma parseArgs_valid_gen i args names callback :
  Variadic.parseError (Variadic.parseArgs i args names callback) = None
  ↔ (∀ goType, ArgOther goType ∉ args)
    ∧ (is_Some callback → ∀ v, ArgFunc v ∉ args)
    ∧ (∀ pre cb post v,
         args = pre ++ ArgFunc (Some cb) :: post → ArgFunc v ∉ post).
Proof.
  revert i names callback.
  induction args as [|a args IH]; intros i names callback.
  - simpl. split; [intros _|done]. split_and!.
    + intros ?. apply not_elem_of_nil.
    + intros _ ?. apply not_elem_of_nil.
    + intros [|??] ? ? ? [=].
  - destruct a as [s|v|goType]; simpl.
    + rewrite IH. split; intros (Ho & Hc & Hs); split_and!.
      * intros ty. rewrite not_elem_of_cons. split; [done|apply Ho].
      * intros Hcb v. rewrite not_elem_of_cons. split; [done|by apply Hc].
      * intros [|a pre] cb post v [=]; subst. by eapply Hs.
      * intros ty. specialize (Ho ty). by apply not_elem_of_cons in Ho as [_ ?].
      * intros Hcb v. specialize (Hc Hcb v).
        by apply not_elem_of_cons in Hc as [_ ?].
      * intros pre cb post w' ->. by apply (Hs (ArgString s :: pre) cb post w').
    + destruct callback as [cb0|].
      * simpl. split; [done|]. intros (_ & Hc & _).
        destruct (Hc (mk_is_Some _ _ eq_refl) v). left.
      * rewrite IH. split; intros (Ho & Hc & Hs); split_and!.
        -- intros ty. rewrite not_elem_of_cons. split; [done|apply Ho].
        -- intros [? [=]].
        -- intros [|a pre] cb post w' [=]; subst; [|by eapply Hs].
           apply Hc. by eexists.
        -- intros ty. specialize (Ho ty).
           by apply not_elem_of_cons in Ho as [_ ?].
        -- intros [cb ->] w'. by apply (Hs [] cb args w').
        -- intros pre cb post w' ->. by apply (Hs (ArgFunc v :: pre) cb post w').
    + split; [done|]. intros (Ho & _). destruct (Ho goType). left.
Qed.

(** Where the loop is when it has read a prefix without error. *)
Lemma parseArgs_app i args rest names callback :
  Variadic.parseError (Variadic.parseArgs i args names callback) = None →
  Variadic.parseArgs i (args ++ rest) names callback =
    Variadic.parseArgs (i + length args) rest
      (Variadic.immutableFieldNames (Variadic.parseArgs i args names callback))
      (Variadic.userCallback (Variadic.parseArgs i args names callback)).
Proof.
  revert i names callback.
  induction args as [|[s|v|goType] args IH]; intros i names callback; simpl.
  - intros _. by rewrite Nat.add_0_r.
  - intros Hp. rewrite IH by done. f_equal. lia.
  - destruct callback; [done|]. intros Hp. rewrite IH by done. f_equal. lia.
  - done.
Qed.

Lemma parseArgs_result_gen i args names callback :
  Variadic.parseError (Variadic.parseArgs i args names callback) = None →
  Variadic.immutableFieldNames (Variadic.parseArgs i args names callback)
    = names ++ argStrings args
  ∧ Variadic.userCallback (Variadic.parseArgs i args names callback)
    = match callback with
      | Some cb => Some cb
      | None => firstCallback args
      end.
Proof.
  revert i names callback.
  induction args as [|[s|v|goType] args IH]; intros i names callback; simpl.
  - intros _. rewrite app_nil_r. by destruct callback.
  - intros Hp. destruct (IH _ _ _ Hp) as [-> ->].
    by rewrite <- app_assoc.
  - destruct callback as [cb0|]; [done|]. intros Hp.
    destruct (IH _ _ _ Hp) as [-> ->]. by destruct v.
  - done.
Qed.

(** Without an argument of another type the position plays no part. *)
Lemma parseArgs_position i j args names callback :
  (∀ goType, ArgOther goType ∉ args) →
  Variadic.parseArgs i args names callback
  = Variadic.parseArgs j args names callback.
Proof.
  revert i j names callback.
  induction args as [|[s|v|goType] args IH]; intros i j names callback Ho;
    simpl.
  - done.
  - apply IH. intros ty Hin. apply (Ho ty). by right.
  - destruct callback; [done|]. apply IH. intros ty Hin. apply (Ho ty).
    by right.
  - destruct (Ho goType). left.
Qed.
End MoreParseFacts.

(** X1. The arguments parse without error exactly when they hold nothing
    but strings and functions, with no function of any kind after a function
    that is not nil. *)
Theorem X1_parse_error_free_iff_valid {W} (args : list (Arg W)) :
  Variadic.parseError (Variadic.parseArgs 0 args [] None) = None
  ↔ ValidArgs args.
Proof.
  rewrite parseArgs_valid_gen. unfold ValidArgs. split.
  - intros (Ho & _ & Hs). done.
  - intros (Ho & Hs). split_and!; [done| |done]. intros [? [=]].
Qed.

(** X2. When the arguments parse without error, the protected names are the
    string arguments in the order given, repeats kept, and the callback is
    the first function that is not nil, if there is one. *)
Theorem X2_parsed_names_and_callback {W} (args : list (Arg W)) :
  Variadic.parseError (Variadic.parseArgs 0 args [] None) = None →
  Variadic.parseArgs 0 args [] None =
    {| Variadic.immutableFieldNames := argStrings args;
       Variadic.userCallback := firstCallback args;
       Variadic.parseError := None |}.
Proof.
  intros Hp. destruct (parseArgs_result_gen 0 args [] None Hp) as [Hn Hc].
  destruct (Variadic.parseArgs 0 args [] None) as [n c pe].
  simpl in *. by subst.
Qed.

Lemma X2_parsed_names_and_callback_witness :
  Variadic.parseArgs 0
    [ArgString "b"; ArgFunc None; ArgString "a";
     ArgFunc (Some Scenario.okCallback); ArgString "b"] [] None
  = {| Variadic.immutableFieldNames := ["b"; "a"; "b"];
       Variadic.userCallback := Some Scenario.okCallback;
       Variadic.parseError := None |}.
Proof.
  apply (X2_parsed_names_and_callback
           [ArgString "b"; ArgFunc None; ArgString "a";
            ArgFunc (Some Scenario.okCallback); ArgString "b"]).
  reflexivity.
Defined.

(** X3. An argument that is neither a string nor a function, standing
    after arguments that parse without error, ends the parsing with the
    error that names its type and its position in the list (counted from 0);
    the names and the callback read before it are kept, nothing after it is
    read, and every run of the hook returns that error as a setup error
    without calling the host. *)
Theorem X3_invalid_argument_position {W} (args : list (Arg W)) (i : nat)
    (goType : string) (e : RecordEvent W) (w : W) :
  args !! i = Some (ArgOther goType) →
  Variadic.parseError (Variadic.parseArgs 0 (take i args) [] None) = None →
  Variadic.parseArgs 0 args [] None =
    {| Variadic.immutableFieldNames := argStrings (take i args);
       Variadic.userCallback := firstCallback (take i args);
       Variadic.parseError := Some (Variadic.errInvalidArgument goType i) |}
  ∧ Variadic.MakeImmutable args e w =
      mkOutcome
        (Some (Variadic.errSetup (Variadic.errInvalidArgument goType i))) w [].
Proof.
  intros Hi Hp.
  assert (Variadic.parseArgs 0 args [] None =
    {| Variadic.immutableFieldNames := argStrings (take i args);
       Variadic.userCallback := firstCallback (take i args);
       Variadic.parseError := Some (Variadic.errInvalidArgument goType i) |})
    as Hparse.
  { rewrite <- (take_drop_middle args i (ArgOther goType) Hi) at 1.
    rewrite parseArgs_app by done.
    rewrite (X2_parsed_names_and_callback _ Hp). simpl.
    rewrite length_take_le; [done|].
    apply lookup_lt_Some in Hi. lia. }
  split; [done|]. unfold Variadic.MakeImmutable. rewrite Hparse.
  by apply hook_setup_error.
Qed.

Lemma X3_invalid_argument_position_witness :
  Variadic.parseArgs 0
    [ArgString "f1"; ArgFunc (Some Scenario.okCallback); ArgOther "float64";
     ArgString "f2"] [] None
  = {| Variadic.immutableFieldNames := ["f1"];
       Variadic.userCallback := Some Scenario.okCallback;
       Variadic.parseError :=
         Some (Variadic.errInvalidArgument "float64" 2) |}.
Proof.
  refine (proj1 (X3_invalid_argument_position
            [ArgString "f1"; ArgFunc (Some Scenario.okCallback);
             ArgOther "float64"; ArgString "f2"] 2 "float64"
            Scenario.dummyEvent Scenario.db0 _ _)).
  - reflexivity.
  - reflexivity.
Defined.

(** X4. Where the callback stands among the strings makes no difference:
    before them, between them or after them, the hook is the same on every
    event. *)
Theorem X4_callback_position_is_free {W} (before after : list string)
    (callback : option (Callback W)) (e : RecordEvent W) (w : W) :
  Variadic.MakeImmutable
    ((ArgString <$> before) ++ ArgFunc callback :: (ArgString <$> after)) e w
  = Variadic.MakeImmutable
      ((ArgString <$> before ++ after) ++ [ArgFunc callback]) e w
  ∧ Variadic.MakeImmutable
      (ArgFunc callback :: (ArgString <$> before ++ after)) e w
    = Variadic.MakeImmutable
        ((ArgString <$> before ++ after) ++ [ArgFunc callback]) e w.
Proof.
  assert (∀ ss ts : list string,
            Variadic.parseArgs 0
              ((ArgString <$> ss) ++ ArgFunc callback :: (ArgString <$> ts))
              [] None
            = {| Variadic.immutableFieldNames := ss ++ ts;
                 Variadic.userCallback := callback;
                 Variadic.parseError := None |}) as Hparse.
  { intros ss ts. rewrite parseArgs_strings. simpl.
    rewrite <- (app_nil_r (ArgString <$> ts)), parseArgs_strings. done. }
  pose proof (Hparse (before ++ after) []) as Hlast.
  pose proof (Hparse [] (before ++ after)) as Hfirst.
  rewrite app_nil_r in Hlast. cbn [fmap list_fmap app] in Hlast, Hfirst.
  unfold Variadic.MakeImmutable. by rewrite Hparse, Hlast, Hfirst.
Qed.

(** X5. A nil function among the leading strings is passed over: unless an
    argument of another type follows (whose reported position it shifts),
    the hook is the one built without it. *)
Theorem X5_nil_function_is_passed_over {W} (leading : list string)
    (rest : list (Arg W)) (e : RecordEvent W) (w : W) :
  (∀ goType, ArgOther goType ∉ rest) →
  Variadic.MakeImmutable ((ArgString <$> leading) ++ ArgFunc None :: rest) e w
  = Variadic.MakeImmutable ((ArgString <$> leading) ++ rest) e w.
Proof.
  intros Ho. unfold Variadic.MakeImmutable.
  rewrite !parseArgs_strings. simpl.
  by rewrite (parseArgs_position _ (0 + length leading) rest).
Qed.

Lemma X5_nil_function_is_passed_over_witness :
  Variadic.MakeImmutable
    ((ArgString <$> ["name"]) ++ ArgFunc None
       :: [ArgFunc (Some Scenario.failingCallback)])
    (Scenario.event Scenario.statusChanged) Scenario.db0
  = Variadic.MakeImmutable
      ((ArgString <$> ["name"]) ++ [ArgFunc (Some Scenario.failingCallback)])
      (Scenario.event Scenario.statusChanged) Scenario.db0.
Proof.
  apply (X5_nil_function_is_passed_over ["name"]
           [ArgFunc (Some Scenario.failingCallback)]
           (Scenario.event Scenario.statusChanged) Scenario.db0).
  intros goType Hin. calls_elim.
Defined.

(** * Further properties of the decision *)

Section MoreHookFacts.
Context {W : Type}.
Implicit Types (p q : @Variadic.Policy W) (e : RecordEvent W) (w : W).

(** A run ended in a violation or it did not. *)
Lemma Denied_or_not p e w :
  Denied (run (Variadic.hook p e) w)
  ∨ ∀ f recordId,
      result (run (Variadic.hook p e) w)
        ≠ Some (ImmutabilityViolation f recordId).
Proof.
  destruct (hook_cases p e w)
    as [(? & _ & ->)|[(_ & _ & ->)|[(? & _ & _ & _ & ->)|
        [(? & ? & ? & ? & _ & _ & _ & _ & ->)|
         [(? & ? & ? & ? & i & f & _ & _ & _ & _ & HF & ->)|
          (? & ? & ? & ? & _ & _ & _ & _ & _ & ->)]]]]];
    cbn [result]; try (right; intros; discriminate).
  - left. by eexists _, _.
  - right. intros. apply commitAndCallback_no_api.
Qed.

(** Two policies alike but for the names give the same run on an event
    when the loop decides alike on the event's record. *)
Lemma hook_ext_on p q e w :
  Variadic.parseError p = Variadic.parseError q →
  Variadic.userCallback p = Variadic.userCallback q →
  (∀ originalRecord eRecord, Event_Record e = Some eRecord →
     checkFields originalRecord eRecord
       (fieldsToCheck (Variadic.immutableFieldNames p) eRecord)
     = checkFields originalRecord eRecord
         (fieldsToCheck (Variadic.immutableFieldNames q) eRecord)) →
  run (Variadic.hook p e) w = run (Variadic.hook q e) w.
Proof.
  intros Hpe Hcb Hloop.
  destruct (Variadic.parseError q) as [parseErr|] eqn:Hq.
  { by rewrite !(hook_setup_error _ e w parseErr). }
  destruct (Event_Record e) as [eRecord|] eqn:Hr; cycle 1.
  { by rewrite !hook_no_record. }
  destruct (Event_App e) as [eApp|] eqn:Ha; cycle 1.
  { by rewrite !(hook_no_app _ e w eRecord). }
  destruct (fetch eApp eRecord w) as [[err|originalRecord] w1] eqn:Hf.
  { by rewrite !(hook_fetch_fails _ e w eRecord eApp err w1). }
  rewrite !(hook_reaches_loop _ e w eRecord eApp originalRecord w1) by done.
  by rewrite Hloop, Hcb.
Qed.

(** When whatever passes the loop of [q] passes the loop of [p], a run of
    [q] that is not denied is also the run of [p]. *)
Lemma hook_mono p q e w :
  Variadic.parseError p = Variadic.parseError q →
  Variadic.userCallback p = Variadic.userCallback q →
  (∀ originalRecord eRecord,
     checkFields originalRecord eRecord
       (fieldsToCheck (Variadic.immutableFieldNames q) eRecord) = None →
     checkFields originalRecord eRecord
       (fieldsToCheck (Variadic.immutableFieldNames p) eRecord) = None) →
  ¬ Denied (run (Variadic.hook q e) w) →
  run (Variadic.hook p e) w = run (Variadic.hook q e) w.
Proof.
  intros Hpe Hcb Hloop Hnot.
  destruct (Variadic.parseError q) as [parseErr|] eqn:Hq.
  { by rewrite !(hook_setup_error _ e w parseErr). }
  destruct (Event_Record e) as [eRecord|] eqn:Hr; cycle 1.
  { by rewrite !hook_no_record. }
  destruct (Event_App e) as [eApp|] eqn:Ha; cycle 1.
  { by rewrite !(hook_no_app _ e w eRecord). }
  destruct (fetch eApp eRecord w) as [[err|originalRecord] w1] eqn:Hf.
  { by rewrite !(hook_fetch_fails _ e w eRecord eApp err w1). }
  rewrite (hook_reaches_loop q e w eRecord eApp originalRecord w1) in Hnot
    by done.
  rewrite !(hook_reaches_loop _ e w eRecord eApp originalRecord w1) by done.
  destruct (checkFields originalRecord eRecord
              (fieldsToCheck (Variadic.immutableFieldNames q) eRecord))
    as [err|] eqn:HC.
  - destruct Hnot. apply checkFields_Some in HC as (i & f & _ & ->).
    by eexists _, _.
  - by rewrite (Hloop _ _ HC), Hcb.
Qed.

(** The names and a callback after them, parsed. *)
Lemma parseArgs_names_then_callback (names : list string)
    (callback : option (Callback W)) :
  Variadic.parseArgs 0 ((ArgString <$> names) ++ [ArgFunc callback]) [] None
  = {| Variadic.immutableFieldNames := names;
       Variadic.userCallback := callback;
       Variadic.parseError := None |}.
Proof. by rewrite parseArgs_strings. Qed.

(** The shape of every trace. *)
Lemma hook_calls p e w :
  let o := run (Variadic.hook p e) w in
  (calls o = [] ∧ ∃ code msg data, result o = Some (ErrApi code msg data))
  ∨ ∃ eRecord, Event_Record e = Some eRecord
    ∧ ((calls o = [fetchCall eRecord]
        ∧ ∃ code msg data, result o = Some (ErrApi code msg data))
       ∨ (∃ err, calls o = [fetchCall eRecord; CallNext (Some err)]
          ∧ result o = Some (Variadic.wrapCommit err))
       ∨ (calls o = [fetchCall eRecord; CallNext None]
          ∧ result o = None ∧ Variadic.userCallback p = None)
       ∨ (∃ r, calls o = [fetchCall eRecord; CallNext None; CallCallback r]
          ∧ result o = Variadic.wrapCallback <$> r
          ∧ is_Some (Variadic.userCallback p))).
Proof.
  intros o. subst o.
  destruct (hook_cases p e w)
    as [(? & _ & ->)|[(_ & _ & ->)|[(? & _ & _ & _ & ->)|
        [(eRecord & ? & ? & ? & _ & Hr & _ & _ & ->)|
         [(eRecord & ? & ? & ? & i & f & _ & Hr & _ & _ & HF & ->)|
          (eRecord & ? & ? & w1 & _ & Hr & _ & _ & _ & ->)]]]]];
    cbn [result calls].
  - left. split; [done|]. by eexists _, _, _.
  - left. split; [done|]. by eexists _, _, _.
  - left. split; [done|]. by eexists _, _, _.
  - right. exists eRecord. split; [done|]. left. split; [done|].
    by eexists _, _, _.
  - right. exists eRecord. split; [done|]. left. split; [done|].
    by eexists _, _, _.
  - right. exists eRecord. split; [done|]. right.
    rewrite run_commitAndCallback. cbn zeta.
    destruct (Event_Next e w1) as [[err|] w2]; cbn [fst snd result calls].
    + left. by exists err.
    + right. destruct (Variadic.userCallback p) as [cb|] eqn:Hcb;
        cbn [result calls].
      * right. exists (cb e w2).1. split_and!; [done|done|by eexists].
      * by left.
Qed.

(** Reordered names pass the loop together. *)
Lemma checkFields_None_perm (names names' : list string)
    originalRecord eRecord :
  names ≡ₚ names' →
  checkFields originalRecord eRecord (fieldsToCheck names eRecord) = None →
  checkFields originalRecord eRecord (fieldsToCheck names' eRecord) = None.
Proof.
  intros Hp. unfold fieldsToCheck. rewrite <- (Permutation_length Hp).
  destruct (Nat.eqb (length names) 0); [done|].
  rewrite !checkFields_None. intros HN f Hf. apply HN. by rewrite Hp.
Qed.

(** Of a list that passes the loop, every non-empty part passes. *)
Lemma checkFields_None_subset (names names' : list string)
    originalRecord eRecord :
  names ≠ [] → names ⊆ names' →
  checkFields originalRecord eRecord (fieldsToCheck names' eRecord) = None →
  checkFields originalRecord eRecord (fieldsToCheck names eRecord) = None.
Proof.
  intros Hne Hsub. unfold fieldsToCheck.
  destruct names as [|n names]; [done|].
  destruct names' as [|n' names'].
  { destruct (not_elem_of_nil n). apply Hsub. left. }
  cbn [length Nat.eqb]. rewrite !checkFields_None.
  intros HN f Hf. apply HN. by apply Hsub.
Qed.

(** Every run, with what it leaves of the host: an early return with the
    host as it was, or as the fetch left it; or [e.Next()] run on the state
    the fetch left and, after it, the callback on the state [e.Next()]
    left. *)
Lemma hook_outcomes p e w :
  let o := run (Variadic.hook p e) w in
  (world o = w ∧ calls o = []
   ∧ ∃ code msg data, result o = Some (ErrApi code msg data))
  ∨ ∃ eRecord eApp, Event_Record e = Some eRecord ∧ Event_App e = Some eApp
    ∧ let w1 := (fetch eApp eRecord w).2 in
      (world o = w1 ∧ calls o = [fetchCall eRecord]
       ∧ ∃ code msg data, result o = Some (ErrApi code msg data))
      ∨ (∃ err, Event_Next e w1 = (Some err, world o)
           ∧ calls o = [fetchCall eRecord; CallNext (Some err)]
           ∧ result o =
               Some (ErrWrap
                 "failed to commit record changes via e.Next() after immutability checks"
                 err))
      ∨ (Variadic.userCallback p = None
         ∧ Event_Next e w1 = (None, world o)
         ∧ calls o = [fetchCall eRecord; CallNext None]
         ∧ result o = None)
      ∨ (∃ cb w2 r, Variadic.userCallback p = Some cb
           ∧ Event_Next e w1 = (None, w2)
           ∧ cb e w2 = (r, world o)
           ∧ calls o = [fetchCall eRecord; CallNext None; CallCallback r]
           ∧ result o =
               ErrWrap "user callback failed AFTER record commit" <$> r).
Proof.
  intros o. subst o.
  destruct (hook_cases p e w)
    as [(? & _ & ->)|[(_ & _ & ->)|[(? & _ & _ & _ & ->)|
        [(eRecord & eApp & ? & w1 & _ & Hr & Ha & Hf & ->)|
         [(eRecord & eApp & ? & w1 & i & f & _ & Hr & Ha & Hf & HF & ->)|
          (eRecord & eApp & ? & w1 & _ & Hr & Ha & Hf & _ & ->)]]]]];
    cbn [result calls world].
  - left. split_and!; [done|done|]. by eexists _, _, _.
  - left. split_and!; [done|done|]. by eexists _, _, _.
  - left. split_and!; [done|done|]. by eexists _, _, _.
  - right. exists eRecord, eApp. split_and!; [done|done|]. rewrite Hf.
    left. split_and!; [done|done|]. by eexists _, _, _.
  - right. exists eRecord, eApp. split_and!; [done|done|]. rewrite Hf.
    left. split_and!; [done|done|]. by eexists _, _, _.
  - right. exists eRecord, eApp. split_and!; [done|done|]. rewrite Hf.
    cbn [snd]. right. rewrite run_commitAndCallback. cbn zeta.
    destruct (Event_Next e w1) as [[err|] w2] eqn:Hn;
      cbn [fst snd result calls world].
    + left. by exists err.
    + right. destruct (Variadic.userCallback p) as [cb|] eqn:Hcb;
        cbn [result calls world].
      * right. exists cb, w2, (cb e w2).1.
        split_and!; [done|done| |done|done]. by destruct (cb e w2).
      * by left.
Qed.
End MoreHookFacts.

(** X6. The order of the protected names decides which violation is
    reported, not whether there is one: with the names reordered a run ends
    in a violation exactly when it did before, and a run that does not is the
    same run, call for call. *)
Theorem X6_order_of_names {W} (names names' : list string)
    (callback : option (Callback W)) (e : RecordEvent W) (w : W) :
  names ≡ₚ names' →
  let o := Variadic.MakeImmutable
             ((ArgString <$> names) ++ [ArgFunc callback]) e w in
  let o' := Variadic.MakeImmutable
              ((ArgString <$> names') ++ [ArgFunc callback]) e w in
  (Denied o ↔ Denied o') ∧ (¬ Denied o → o = o').
Proof.
  intros Hp o o'. subst o o'. unfold Variadic.MakeImmutable.
  rewrite !parseArgs_names_then_callback.
  set (p := {| Variadic.immutableFieldNames := names;
               Variadic.userCallback := callback;
               Variadic.parseError := None |}).
  set (q := {| Variadic.immutableFieldNames := names';
               Variadic.userCallback := callback;
               Variadic.parseError := None |}).
  assert (¬ Denied (run (Variadic.hook p e) w) →
          run (Variadic.hook q e) w = run (Variadic.hook p e) w) as Hpq.
  { apply hook_mono; [done|done|]. intros ??.
    by apply checkFields_None_perm. }
  assert (¬ Denied (run (Variadic.hook q e) w) →
          run (Variadic.hook p e) w = run (Variadic.hook q e) w) as Hqp.
  { apply hook_mono; [done|done|]. intros ??.
    by apply checkFields_None_perm. }
  split; [split|].
  - intros Hd. destruct (Denied_or_not q e w) as [?|Hn]; [done|].
    rewrite Hqp in Hd; [done|]. intros (f & r & Hres). by apply (Hn f r).
  - intros Hd. destruct (Denied_or_not p e w) as [?|Hn]; [done|].
    rewrite Hpq in Hd; [done|]. intros (f & r & Hres). by apply (Hn f r).
  - intros Hn. by rewrite Hpq.
Qed.

Lemma X6_order_of_names_witness :
  Denied (Variadic.MakeImmutable
            ((ArgString <$> ["name"; "status"]) ++ [ArgFunc None])
            (Scenario.event Scenario.statusChanged) Scenario.db0)
  ↔ Denied (Variadic.MakeImmutable
              ((ArgString <$> ["status"; "name"]) ++ [ArgFunc None])
              (Scenario.event Scenario.statusChanged) Scenario.db0).
Proof.
  refine (proj1 (X6_order_of_names ["name"; "status"] ["status"; "name"] None
                   (Scenario.event Scenario.statusChanged) Scenario.db0 _)).
  apply perm_swap.
Defined.

(** X7. Protecting fewer attributes never denies more: when a run with a
    list of names is not denied, the run with any non-empty selection of
    those names is the same run. *)
Theorem X7_fewer_names_deny_no_more {W} (names names' : list string)
    (callback : option (Callback W)) (e : RecordEvent W) (w : W) :
  names ≠ [] →
  names ⊆ names' →
  ¬ Denied (Variadic.MakeImmutable
              ((ArgString <$> names') ++ [ArgFunc callback]) e w) →
  Variadic.MakeImmutable ((ArgString <$> names) ++ [ArgFunc callback]) e w
  = Variadic.MakeImmutable ((ArgString <$> names') ++ [ArgFunc callback]) e w.
Proof.
  intros Hne Hsub. unfold Variadic.MakeImmutable.
  rewrite !parseArgs_names_then_callback.
  apply hook_mono; [done|done|]. intros ??.
  by apply checkFields_None_subset.
Qed.

Lemma X7_fewer_names_deny_no_more_witness :
  Variadic.MakeImmutable
    ((ArgString <$> ["name"]) ++ [ArgFunc None])
    (Scenario.event Scenario.statusChanged) Scenario.db0
  = Variadic.MakeImmutable
      ((ArgString <$> ["description"; "name"; "value"]) ++ [ArgFunc None])
      (Scenario.event Scenario.statusChanged) Scenario.db0.
Proof.
  apply (X7_fewer_names_deny_no_more ["name"] ["description"; "name"; "value"]
           None (Scenario.event Scenario.statusChanged) Scenario.db0).
  - discriminate.
  - intros f Hf. apply list_elem_of_singleton in Hf as ->. calls_intro.
  - intros (f & r & Hres). vm_compute in Hres. discriminate Hres.
Defined.

(** X8. Giving no names is giving the names of the schema's user fields:
    on an event whose record has at least one field that is not a system
    field the two hooks run alike; and on a record whose schema has no such
    field the hook without names checks nothing, so no run is denied. *)
Theorem X8_default_is_the_user_fields {W} (callback : option (Callback W))
    (e : RecordEvent W) (eRecord : ModelsRecord) (w : W) :
  Event_Record e = Some eRecord →
  (userFields (Record_Schema eRecord) ≠ [] →
   Variadic.MakeImmutable [ArgFunc callback] e w
   = Variadic.MakeImmutable
       ((ArgString <$> userFields (Record_Schema eRecord))
          ++ [ArgFunc callback]) e w)
  ∧ (userFields (Record_Schema eRecord) = [] →
     ¬ Denied (Variadic.MakeImmutable [ArgFunc callback] e w)).
Proof.
  intros Hr. unfold Variadic.MakeImmutable.
  rewrite parseArgs_names_then_callback.
  change [ArgFunc callback] with ((ArgString <$> []) ++ [ArgFunc callback]).
  rewrite parseArgs_names_then_callback. split.
  - intros Hne. apply hook_ext_on; [done|done|].
    intros originalRecord eRecord' Hr'.
    cbn [Variadic.immutableFieldNames]. unfold fieldsToCheck.
    assert (eRecord' = eRecord) as -> by congruence.
    by destruct (userFields (Record_Schema eRecord)).
  - intros Hnone (f & r & Hres).
    destruct (hook_cases
                {| Variadic.immutableFieldNames := [];
                   Variadic.userCallback := callback;
                   Variadic.parseError := None |} e w)
      as [(? & _ & Ho)|[(_ & _ & Ho)|[(? & _ & _ & _ & Ho)|
          [(? & ? & ? & ? & _ & _ & _ & _ & Ho)|
           [(eRecord' & ? & ? & ? & i & g & _ & Hr' & _ & _ & HF & Ho)|
            (? & ? & ? & ? & _ & _ & _ & _ & _ & Ho)]]]]];
      rewrite Ho in Hres; cbn [result] in Hres; try discriminate Hres.
    + assert (eRecord' = eRecord) as -> by congruence.
      destruct HF as (Hi & _). cbn [Variadic.immutableFieldNames] in Hi.
      unfold fieldsToCheck in Hi. cbn [length Nat.eqb] in Hi.
      rewrite Hnone in Hi. done.
    + by apply commitAndCallback_no_api in Hres.
Qed.

Lemma X8_default_is_the_user_fields_witness :
  Variadic.MakeImmutable [ArgFunc None]
    (Scenario.event Scenario.valueChanged) Scenario.db0
  = Variadic.MakeImmutable
      ((ArgString <$> ["name"; "value"; "status"; "description"])
         ++ [ArgFunc None])
      (Scenario.event Scenario.valueChanged) Scenario.db0.
Proof.
  refine (proj1 (X8_default_is_the_user_fields None
                   (Scenario.event Scenario.valueChanged)
                   Scenario.valueChanged Scenario.db0 _) _).
  - reflexivity.
  - discriminate.
Defined.

(** X9. An update that changes nothing is never denied: when every
    attribute of the proposed record has the content of the stored one (so
    no NaN among them), then whatever the names the run is not denied and
    calls [e.Next()] on the host state the fetch left; what [e.Next()]
    returns is in the trace, and without a callback the run ends there, in
    the state [e.Next()] left and with its error wrapped, or nil. *)
Theorem X9_unchanged_record_passes {W} (args : list (Arg W))
    (e : RecordEvent W) eRecord eApp originalRecord (w w1 : W) :
  Variadic.parseError (Variadic.parseArgs 0 args [] None) = None →
  Event_Record e = Some eRecord →
  Event_App e = Some eApp →
  fetch eApp eRecord w = (inr originalRecord, w1) →
  (∀ f, WellFormed (Record_Get originalRecord f)
        ∧ WellFormed (Record_Get eRecord f)
        ∧ SameContent (Record_Get originalRecord f) (Record_Get eRecord f)) →
  let o := Variadic.MakeImmutable args e w in
  ¬ Denied o
  ∧ calls o !! 0 = Some (fetchCall eRecord)
  ∧ calls o !! 1 = Some (CallNext (Event_Next e w1).1)
  ∧ (∀ err, (Event_Next e w1).1 = Some err →
       o = mkOutcome
             (Some (ErrWrap
                "failed to commit record changes via e.Next() after immutability checks"
                err))
             (Event_Next e w1).2 [fetchCall eRecord; CallNext (Some err)])
  ∧ ((Event_Next e w1).1 = None →
     Variadic.userCallback (Variadic.parseArgs 0 args [] None) = None →
     o = mkOutcome None (Event_Next e w1).2
           [fetchCall eRecord; CallNext None]).
Proof.
  intros Hp Hr Ha Hf Hsame o. subst o. unfold Variadic.MakeImmutable.
  rewrite (hook_reaches_loop _ e w eRecord eApp originalRecord w1) by done.
  assert (checkFields originalRecord eRecord
            (fieldsToCheck
               (Variadic.immutableFieldNames
                  (Variadic.parseArgs 0 args [] None)) eRecord) = None) as ->.
  { apply checkFields_None. intros f _ [HC _]. unfold Changed in HC.
    destruct (Hsame f) as (Hw1 & Hw2 & HS).
    by rewrite (SameContent_DeepEqual _ _ Hw1 Hw2 HS) in HC. }
  cbn zeta. rewrite run_commitAndCallback. cbn zeta.
  destruct (Event_Next e w1) as [[nerr|] w2]; cbn [fst snd].
  - split_and!; try done.
    + by intros (f & r & [=]).
    + by intros err [= ->].
  - destruct (Variadic.userCallback _) as [cb|]; cbn [result world calls].
    + split_and!; try done.
      intros (f & r & Hres). cbn [result] in Hres.
      by destruct (cb e w2).1.
    + split_and!; try done. by intros (f & r & [=]).
Qed.

Lemma X9_unchanged_record_passes_witness :
  Variadic.MakeImmutable [] (Scenario.event Scenario.stored) Scenario.db0
  = mkOutcome None {[ "r1" := Scenario.stored ]}
              [fetchCall Scenario.stored; CallNext None].
Proof.
  refine (proj2 (proj2 (proj2 (proj2 (X9_unchanged_record_passes []
            (Scenario.event Scenario.stored) Scenario.stored Scenario.app
            Scenario.stored Scenario.db0 Scenario.db0 _ _ _ _ _)))) _ _).
  - reflexivity.
  - reflexivity.
  - reflexivity.
  - reflexivity.
  - intros f. unfold Record_Get, Scenario.stored, Scenario.item,
      Scenario.mkRecord.
    cbn [Record_data list_to_map foldr fst snd uncurry].
    destruct (decide (f = "name")) as [->|?];
      [split_and!; [exact I|exact I|constructor]|].
    destruct (decide (f = "value")) as [->|?];
      [split_and!; [exact I|exact I|constructor]|].
    destruct (decide (f = "status")) as [->|?];
      [split_and!; [exact I|exact I|constructor]|].
    destruct (decide (f = "created")) as [->|?];
      [split_and!; [exact I|exact I|constructor]|].
    destruct (decide (f = "updated")) as [->|?];
      [split_and!; [exact I|exact I|constructor]|].
    rewrite !lookup_insert_ne by done. rewrite lookup_empty.
    split_and!; [exact I|exact I|constructor].
  - reflexivity.
  - reflexivity.
Defined.

(** X10. The calls of a run, whatever the arguments and the event: none;
    or the fetch of the event's record alone; or the fetch and then
    [e.Next()], failed; or the fetch and [e.Next()], nil, and then, exactly
    when a callback was given, the callback.  So nothing is committed
    without the fetch before it, the callback never runs before the commit,
    and no collaborator is called twice. *)
Theorem X10_calls_of_a_run {W} (args : list (Arg W))
    (e : RecordEvent W) (w : W) :
  let p := Variadic.parseArgs 0 args [] None in
  let o := Variadic.MakeImmutable args e w in
  calls o = []
  ∨ ∃ eRecord, Event_Record e = Some eRecord
    ∧ (calls o = [fetchCall eRecord]
       ∨ (∃ err, calls o = [fetchCall eRecord; CallNext (Some err)])
       ∨ (calls o = [fetchCall eRecord; CallNext None]
          ∧ Variadic.userCallback p = None)
       ∨ (∃ r, calls o = [fetchCall eRecord; CallNext None; CallCallback r]
          ∧ is_Some (Variadic.userCallback p))).
Proof.
  intros p o. subst p o. unfold Variadic.MakeImmutable.
  destruct (hook_calls (Variadic.parseArgs 0 args [] None) e w)
    as [[-> _]|(eRecord & Hr & [[-> _]|[(err & -> & _)|
        [(-> & _ & Hcb)|(r & -> & _ & Hcb)]]])].
  - by left.
  - right. exists eRecord. split; [done|]. by left.
  - right. exists eRecord. split; [done|]. right. left. by exists err.
  - right. exists eRecord. split; [done|]. right. right. by left.
  - right. exists eRecord. split; [done|]. right. right. right. by exists r.
Qed.

(** X11. What the returned error tells about the run.  Nil: [e.Next()]
    was run on the state the fetch left and returned nil, and the host is in
    the state [e.Next()] left or, with a callback, in the state the callback
    left after returning nil.  A bad-request error: neither [e.Next()] nor
    the callback was called, and the host is as it was or as the fetch left
    it.  A wrapping error with the text "failed to commit record changes via
    e.Next() after immutability checks": [e.Next()] returned the wrapped
    error and left the host as it is, and no callback was called.  A
    wrapping error with the text "user callback failed AFTER record commit":
    [e.Next()] had returned nil and the callback, run on the state it left,
    returned the wrapped error.  No other error is returned. *)
Theorem X11_error_tells_the_stage {W} (args : list (Arg W))
    (e : RecordEvent W) (w : W) :
  let p := Variadic.parseArgs 0 args [] None in
  let o := Variadic.MakeImmutable args e w in
  (result o = None →
     ∃ eRecord eApp w2,
       Event_Record e = Some eRecord ∧ Event_App e = Some eApp
       ∧ Event_Next e (fetch eApp eRecord w).2 = (None, w2)
       ∧ ((Variadic.userCallback p = None ∧ world o = w2
           ∧ calls o = [fetchCall eRecord; CallNext None])
          ∨ (∃ cb, Variadic.userCallback p = Some cb
               ∧ cb e w2 = (None, world o)
               ∧ calls o = [fetchCall eRecord; CallNext None;
                            CallCallback None])))
  ∧ (∀ code msg data, result o = Some (ErrApi code msg data) →
       (∀ r, (CallNext r ∉ calls o) ∧ (CallCallback r ∉ calls o))
       ∧ (world o = w
          ∨ ∃ eRecord eApp,
              Event_Record e = Some eRecord ∧ Event_App e = Some eApp
              ∧ world o = (fetch eApp eRecord w).2))
  ∧ (∀ prefix cause, result o = Some (ErrWrap prefix cause) →
       ∃ eRecord eApp,
         Event_Record e = Some eRecord ∧ Event_App e = Some eApp
         ∧ ((prefix =
               "failed to commit record changes via e.Next() after immutability checks"
             ∧ Event_Next e (fetch eApp eRecord w).2 = (Some cause, world o)
             ∧ calls o = [fetchCall eRecord; CallNext (Some cause)])
            ∨ (prefix = "user callback failed AFTER record commit"
               ∧ ∃ cb w2, Variadic.userCallback p = Some cb
                   ∧ Event_Next e (fetch eApp eRecord w).2 = (None, w2)
                   ∧ cb e w2 = (Some cause, world o)
                   ∧ calls o = [fetchCall eRecord; CallNext None;
                                CallCallback (Some cause)])))
  ∧ (∀ msg, result o ≠ Some (ErrNew msg)).
Proof.
  intros p o. subst p o. unfold Variadic.MakeImmutable.
  destruct (hook_outcomes (Variadic.parseArgs 0 args [] None) e w)
    as [(Hw & Hc & code & msg & data & Hres)
       |(eRecord & eApp & Hr & Ha &
          [(Hw & Hc & code & msg & data & Hres)
          |[(err & Hn & Hc & Hres)
           |[(Hcb & Hn & Hc & Hres)
            |(cb & w2 & r & Hcb & Hn & Hcbr & Hc & Hres)]]])];
    rewrite Hres, Hc; unfold fetchCall.
  - split_and!; [done| |done|done]. intros ? ? ? _.
    split; [|by left]. intros; split; intro; calls_elim.
  - split_and!; [done| |done|done]. intros ? ? ? _.
    split; [|right; by exists eRecord, eApp].
    intros; split; intro; calls_elim.
  - split_and!; [done|done| |done].
    intros prefix cause [= <- <-]. exists eRecord, eApp.
    split_and!; [done|done|]. by left.
  - split_and!; [|done|done|done].
    intros _. eexists eRecord, eApp, _.
    split_and!; [done|done|exact Hn|]. by left.
  - destruct r as [cerr|]; cbn [fmap option_fmap option_map].
    + split_and!; [done|done| |done].
      intros prefix cause [= <- <-]. exists eRecord, eApp.
      split_and!; [done|done|]. right. split; [done|]. by exists cb, w2.
    + split_and!; [|done|done|done].
      intros _. exists eRecord, eApp, w2.
      split_and!; [done|done|done|]. right. by exists cb.
Qed.

(** X12. When the fetch of the stored record fails, whatever the names and
    the callback, the hook returns a bad-request error that names the record
    and its collection and carries the cause; the host is left as the fetch
    left it, and neither [e.Next()] nor the callback is called. *)
Theorem X12_fetch_failure_blocks {W} (args : list (Arg W))
    (e : RecordEvent W) eRecord eApp cause (w w1 : W) :
  Variadic.parseError (Variadic.parseArgs 0 args [] None) = None →
  Event_Record e = Some eRecord →
  Event_App e = Some eApp →
  fetch eApp eRecord w = (inl cause, w1) →
  Variadic.MakeImmutable args e w =
    mkOutcome
      (Some (NewBadRequestError
               ("Failed to fetch original record " +:+ Record_Id eRecord
                +:+ " from collection "
                +:+ Collection_Name (Record_Collection eRecord)
                +:+ " for immutability check.")
               (DataErr cause)))
      w1 [fetchCall eRecord].
Proof.
  intros Hp Hr Ha Hf. unfold Variadic.MakeImmutable.
  by rewrite (hook_fetch_fails _ e w eRecord eApp cause w1).
Qed.

Lemma X12_fetch_failure_blocks_witness :
  Variadic.MakeImmutable
    [ArgString "name"; ArgFunc (Some Scenario.okCallback)]
    (Scenario.event Scenario.unknownRecord) Scenario.db0
  = mkOutcome
      (Some (NewBadRequestError
               "Failed to fetch original record r9 from collection test_items for immutability check."
               (DataErr (ErrNew "sql: no rows in result set"))))
      Scenario.db0 [fetchCall Scenario.unknownRecord].
Proof.
  apply (X12_fetch_failure_blocks
           [ArgString "name"; ArgFunc (Some Scenario.okCallback)]
           (Scenario.event Scenario.unknownRecord) Scenario.unknownRecord
           Scenario.app (ErrNew "sql: no rows in result set")
           Scenario.db0 Scenario.db0); reflexivity.
Defined.

(** X13. The second revision only judges: its hook never calls [e.Next()]
    nor any callback, whatever the event; and past the fetch it returns nil
    exactly when no attribute of the list checked offends, leaving the host
    as the fetch left it with the fetch as its only call. *)
Theorem X13_second_revision_only_judges {W} (names : list string)
    (e : RecordEvent W) (w : W) :
  let s := StringsOnly.MakeImmutable names e w in
  (∀ r, (CallNext r ∉ calls s) ∧ (CallCallback r ∉ calls s))
  ∧ (∀ eRecord eApp originalRecord w1,
       Event_Record e = Some eRecord → Event_App e = Some eApp →
       fetch eApp eRecord w = (inr originalRecord, w1) →
       (result s = None
        ↔ ∀ f, f ∈ fieldsToCheck names eRecord →
               ¬ Offends originalRecord eRecord f)
       ∧ world s = w1 ∧ calls s = [fetchCall eRecord]).
Proof.
  intros s. subst s. unfold StringsOnly.MakeImmutable. split.
  - intros r.
    destruct (hooks_side_by_side names e w)
      as [(_ & _ & ->)|[(? & _ & _ & _ & ->)|
          [(? & ? & ? & ? & _ & _ & _ & _ & ->)|
           [(? & ? & ? & ? & ? & ? & _ & _ & _ & _ & -> & ->)|
            (? & ? & ? & ? & _ & _ & _ & _ & _ & ->)]]]];
      cbn [calls]; unfold fetchCall; split; intro; calls_elim.
  - intros eRecord eApp originalRecord w1 Hr Ha Hf.
    rewrite (strings_hook_reaches_loop names e w eRecord eApp
               originalRecord w1) by done.
    cbn [result world calls]. split_and!; [|done|done].
    apply checkFields_None.
Qed.
